(** * Pixelated image reveal: a model of [src/image.js]

    The [Content] class replaces an image by a canvas, draws it pixelated
    and, once the canvas reaches the top of the viewport, steps through
    [pxFactorValues] with a chain of 100 ms timers; a debounced resize
    listener redraws the clear image.

    - [JsNumber] is the arithmetic [render] needs; its instance is IEEE
      754 binary64, what a JavaScript engine computes, built on
      [SpecFloat] so that frames can be evaluated.  The control flow is
      stated for any such arithmetic, the letterboxing for binary64, with
      the rounding of each operation accounted for.
    - [Content] has the fields of the class and of its host (timer table,
      listeners, layout box of the wrapper), the methods as state
      transformers that log what they do, and the host's event loop as a
      total [step] function over the events it can deliver.
    - [Inv] is the invariant of the event loop; the sections after it
      state what the sequencer, the resize path, the load callback and the
      letterboxing arithmetic do.
    - The last sections follow whole runs: where the constructor puts the
      canvas, the reveal from the top trigger to the clear image, the
      timers and frames a run can have, the drawing buffer against the
      wrapper, and the reduced size the image is sampled into. *)

From Stdlib Require Import ZArith QArith Qpower Lia List Bool.
From Stdlib Require Import Floats.SpecFloat.
From stdpp Require Import base option list gmap.

Local Open Scope Z_scope.

(** ** JavaScript numbers *)

(** What [render] asks of the number type.  [num_of_Z] reads an integral
    DOM attribute ([canvas.width], [img.height], ...), [num_decimal n d] is
    the literal whose decimal value is [n/d]. *)
Class JsNumber (N : Type) := {
  num_of_Z : Z → N;
  num_decimal : Z → positive → N;
  num_div : N → N → N;
  num_mul : N → N → N;
  num_sub : N → N → N;
  num_gt : N → N → bool;
  num_round : N → N;
  num_floor : N → N;
}.

(** A value that may be [undefined] ([None]).  An arithmetic operator turns
    an [undefined] operand into NaN, which then propagates; [None] stands
    for that NaN as well.  A comparison with it is false. *)
Definition jsval (N : Type) : Type := option N.

Section JsValues.
Context {N : Type} `{JsNumber N}.

Definition js_lift2 (f : N → N → N) (a b : jsval N) : jsval N :=
  match a, b with
  | Some x, Some y => Some (f x y)
  | _, _ => None
  end.

Definition js_div : jsval N → jsval N → jsval N := js_lift2 num_div.
Definition js_mul : jsval N → jsval N → jsval N := js_lift2 num_mul.
Definition js_sub : jsval N → jsval N → jsval N := js_lift2 num_sub.

Definition js_gt (a b : jsval N) : bool :=
  match a, b with
  | Some x, Some y => num_gt x y
  | _, _ => false
  end.

Definition Math_round (a : jsval N) : jsval N := num_round <$> a.
Definition Math_floor (a : jsval N) : jsval N := num_floor <$> a.
End JsValues.

(** *** IEEE 754 binary64 *)

Module Binary64.
Definition prec : Z := 53.
Definition emax : Z := 1024.

Definition of_Z (z : Z) : spec_float := binary_normalize prec emax z 0 false.

(** [floor (m * 2^e)]: a shift left by a negative amount is a floored
    division. *)
Definition floor (x : spec_float) : spec_float :=
  match x with
  | S754_finite s m e =>
      if 0 <=? e then x else of_Z (Z.shiftl (cond_Zopp s (Z.pos m)) e)
  | _ => x
  end.

(** [Math.round]: the nearest integer, a tie going towards +∞, that is
    [floor (x + 1/2)] computed exactly; a result of zero keeps the sign
    of the argument. *)
Definition round (x : spec_float) : spec_float :=
  match x with
  | S754_finite s m e =>
      if 0 <=? e then x
      else
        let r := Z.shiftl (2 * cond_Zopp s (Z.pos m) + 2 ^ (- e)) (e - 1) in
        if r =? 0 then S754_zero s else of_Z r
  | _ => x
  end.

#[global] Instance number : JsNumber spec_float := {|
  num_of_Z := of_Z;
  num_decimal n d := SFdiv prec emax (of_Z n) (of_Z (Z.pos d));
  num_div := SFdiv prec emax;
  num_mul := SFmul prec emax;
  num_sub := SFsub prec emax;
  num_gt x y := SFltb y x;
  num_round := round;
  num_floor := floor;
|}.
End Binary64.

(** *** Reading binary64 numbers *)

(** The rational a binary64 number stands for. *)
Definition B2Q (x : spec_float) : option Q :=
  match x with
  | S754_zero _ => Some 0%Q
  | S754_finite s m e => Some (inject_Z (cond_Zopp s (Z.pos m)) * 2 ^ e)%Q
  | _ => None
  end.

(** The record [shr_1] works on, for the fraction [N / D]: the integer
    part, whether the remainder reaches one half, and whether it is
    neither zero nor one half. *)
Definition rec_frac (N D : Z) : shr_record :=
  {| shr_m := N / D;
     shr_r := D <=? 2 * (N mod D);
     shr_s := negb (N mod D =? 0) && negb (2 * (N mod D) =? D) |}.

(** Where [N / D] lies between its integer part and the next integer. *)
Definition loc_frac (N D : Z) : location :=
  if N mod D =? 0 then loc_Exact else loc_Inexact (2 * (N mod D) ?= D).

(** ** The [Content] class and its host *)

(** The two closures handed to [setTimeout]: the debounced body of the
    resize listener (lines 82-86) and the step of [animatePixels]
    (lines 193-196). *)
Inductive callback := CbResize | CbStep.

#[global] Instance callback_eq_dec : EqDecision callback.
Proof. solve_decision. Defined.

(** A pending timer: when [setTimeout] was called, the delay it was given
    and the closure to run. *)
Record timer := Timer { armed : nat; delay : nat; cb : callback }.

(** A [ScrollTrigger] created with [once: true]: it is killed by its first
    [onEnter]. *)
Inductive trigger := Absent | Live | Spent.

(** The registrations [initEvents] can make. *)
Inductive binding := BResize | BEnterTop | BParallax | BEnterBottom.

#[global] Instance binding_eq_dec : EqDecision binding.
Proof. solve_decision. Defined.

Section Content.
Context {N : Type} `{JsNumber N}.

(** The arguments of the four context calls of one [render]:
    [clearRect(0, 0, w, h)], [imageSmoothingEnabled = false],
    [drawImage(img, 0, 0, scaledW, scaledH)] and
    [drawImage(canvas, 0, 0, scaledW, scaledH, newX, newY, newWidth,
    newHeight)], with the [pxIndex] and [imgRatio] they were computed
    from. *)
Record frame := Frame {
  f_index : nat;
  f_ratio : jsval N;
  f_w : Z;
  f_h : Z;
  f_smoothing : bool;
  f_scale : jsval N;
  f_scaledW : jsval N;
  f_scaledH : jsval N;
  f_newX : jsval N;
  f_newY : jsval N;
  f_newWidth : jsval N;
  f_newHeight : jsval N;
}.

(** What the object does to the world, in the order it happens. *)
Inductive effect :=
| Render (f : frame)
| SetTimeout (id : nat) (c : callback) (ms : nat)
| ClearTimeout (id : option nat)
| Bind (b : binding)
| SetOpacity (v : Z).

Record state := State {
  (* fields of the class *)
  DOM_inner : option unit;
  imgRatio : jsval N;
  pxIndex : nat;
  canvas_width : Z;
  canvas_height : Z;
  (* the variable [resizeTimeout] captured by the resize listener *)
  resizeTimeout : option nat;
  (* the host: image load in flight, layout box of [canvasWrap], clock,
     timer table, registrations *)
  img_pending : bool;
  offsetWidth : Z;
  offsetHeight : Z;
  clock : nat;
  next_timer : nat;
  timers : gmap nat timer;
  resize_bound : bool;
  enter_top : trigger;
  enter_bottom : trigger;
  parallax_bound : bool;
  (* everything done so far, oldest first *)
  effects : list effect;
}.

Definition set_imgRatio (v : jsval N) (s : state) : state :=
  State (DOM_inner s) v (pxIndex s) (canvas_width s) (canvas_height s)
    (resizeTimeout s) (img_pending s) (offsetWidth s) (offsetHeight s)
    (clock s) (next_timer s) (timers s) (resize_bound s) (enter_top s)
    (enter_bottom s) (parallax_bound s) (effects s).
Definition set_pxIndex (v : nat) (s : state) : state :=
  State (DOM_inner s) (imgRatio s) v (canvas_width s) (canvas_height s)
    (resizeTimeout s) (img_pending s) (offsetWidth s) (offsetHeight s)
    (clock s) (next_timer s) (timers s) (resize_bound s) (enter_top s)
    (enter_bottom s) (parallax_bound s) (effects s).
Definition set_canvas (w h : Z) (s : state) : state :=
  State (DOM_inner s) (imgRatio s) (pxIndex s) w h
    (resizeTimeout s) (img_pending s) (offsetWidth s) (offsetHeight s)
    (clock s) (next_timer s) (timers s) (resize_bound s) (enter_top s)
    (enter_bottom s) (parallax_bound s) (effects s).
Definition set_resizeTimeout (v : option nat) (s : state) : state :=
  State (DOM_inner s) (imgRatio s) (pxIndex s) (canvas_width s) (canvas_height s)
    v (img_pending s) (offsetWidth s) (offsetHeight s)
    (clock s) (next_timer s) (timers s) (resize_bound s) (enter_top s)
    (enter_bottom s) (parallax_bound s) (effects s).
Definition set_img_pending (v : bool) (s : state) : state :=
  State (DOM_inner s) (imgRatio s) (pxIndex s) (canvas_width s) (canvas_height s)
    (resizeTimeout s) v (offsetWidth s) (offsetHeight s)
    (clock s) (next_timer s) (timers s) (resize_bound s) (enter_top s)
    (enter_bottom s) (parallax_bound s) (effects s).
Definition set_offset (w h : Z) (s : state) : state :=
  State (DOM_inner s) (imgRatio s) (pxIndex s) (canvas_width s) (canvas_height s)
    (resizeTimeout s) (img_pending s) w h
    (clock s) (next_timer s) (timers s) (resize_bound s) (enter_top s)
    (enter_bottom s) (parallax_bound s) (effects s).
Definition set_clock (v : nat) (s : state) : state :=
  State (DOM_inner s) (imgRatio s) (pxIndex s) (canvas_width s) (canvas_height s)
    (resizeTimeout s) (img_pending s) (offsetWidth s) (offsetHeight s)
    v (next_timer s) (timers s) (resize_bound s) (enter_top s)
    (enter_bottom s) (parallax_bound s) (effects s).
Definition set_timers (n : nat) (v : gmap nat timer) (s : state) : state :=
  State (DOM_inner s) (imgRatio s) (pxIndex s) (canvas_width s) (canvas_height s)
    (resizeTimeout s) (img_pending s) (offsetWidth s) (offsetHeight s)
    (clock s) n v (resize_bound s) (enter_top s)
    (enter_bottom s) (parallax_bound s) (effects s).
Definition set_resize_bound (v : bool) (s : state) : state :=
  State (DOM_inner s) (imgRatio s) (pxIndex s) (canvas_width s) (canvas_height s)
    (resizeTimeout s) (img_pending s) (offsetWidth s) (offsetHeight s)
    (clock s) (next_timer s) (timers s) v (enter_top s)
    (enter_bottom s) (parallax_bound s) (effects s).
Definition set_enter_top (v : trigger) (s : state) : state :=
  State (DOM_inner s) (imgRatio s) (pxIndex s) (canvas_width s) (canvas_height s)
    (resizeTimeout s) (img_pending s) (offsetWidth s) (offsetHeight s)
    (clock s) (next_timer s) (timers s) (resize_bound s) v
    (enter_bottom s) (parallax_bound s) (effects s).
Definition set_enter_bottom (v : trigger) (s : state) : state :=
  State (DOM_inner s) (imgRatio s) (pxIndex s) (canvas_width s) (canvas_height s)
    (resizeTimeout s) (img_pending s) (offsetWidth s) (offsetHeight s)
    (clock s) (next_timer s) (timers s) (resize_bound s) (enter_top s)
    v (parallax_bound s) (effects s).
Definition set_parallax_bound (v : bool) (s : state) : state :=
  State (DOM_inner s) (imgRatio s) (pxIndex s) (canvas_width s) (canvas_height s)
    (resizeTimeout s) (img_pending s) (offsetWidth s) (offsetHeight s)
    (clock s) (next_timer s) (timers s) (resize_bound s) (enter_top s)
    (enter_bottom s) v (effects s).
Definition emit (e : effect) (s : state) : state :=
  State (DOM_inner s) (imgRatio s) (pxIndex s) (canvas_width s) (canvas_height s)
    (resizeTimeout s) (img_pending s) (offsetWidth s) (offsetHeight s)
    (clock s) (next_timer s) (timers s) (resize_bound s) (enter_top s)
    (enter_bottom s) (parallax_bound s) (effects s ++ [e]).

(** *** The host's timers *)

(** [setTimeout(c, ms)]: a fresh handle, returned with the new state. *)
Definition setTimeout (c : callback) (ms : nat) (s : state) : nat * state :=
  let id := next_timer s in
  (id, emit (SetTimeout id c ms)
         (set_timers (S id) (<[id := Timer (clock s) ms c]> (timers s)) s)).

(** [clearTimeout(h)]: nothing happens for [undefined] or for a handle
    that is no longer pending. *)
Definition clearTimeout (h : option nat) (s : state) : state :=
  emit (ClearTimeout h)
    match h with
    | Some id => set_timers (next_timer s) (delete id (timers s)) s
    | None => s
    end.

(** *** The methods *)

(** Line 24. *)
Definition pxFactorValues : list N :=
  [num_decimal 2 100; num_decimal 4 100; num_decimal 6 100;
   num_decimal 9 100; num_decimal 10 10].

(** Lines 134-139 (the two style assignments have no bearing on the
    drawing buffer). *)
Definition setCanvasSize (s : state) : state :=
  set_canvas (offsetWidth s) (offsetHeight s) s.

(** Lines 146-160 of [render]: the target rectangle
    [(newX, newY, newWidth, newHeight)]. *)
Definition target_rect (w h : Z) (ratio : jsval N)
  : jsval N * jsval N * jsval N * jsval N :=
  let newWidth := Some (num_of_Z w) in
  let newHeight := Some (num_of_Z h) in
  let newX := Some (num_of_Z 0) in
  let newY := Some (num_of_Z 0) in
  if js_gt (js_div newWidth newHeight) ratio then
    let newHeight := Math_round (js_div (Some (num_of_Z w)) ratio) in
    (newX, newY, newWidth, newHeight)
  else
    let newWidth := Math_round (js_mul (Some (num_of_Z h)) ratio) in
    let newX := js_div (js_sub (Some (num_of_Z w)) newWidth)
                  (Some (num_of_Z 2)) in
    (newX, newY, newWidth, newHeight).

(** Lines 146-183: everything [render] hands to the context. *)
Definition render_frame (s : state) : frame :=
  let w := canvas_width s in
  let h := canvas_height s in
  let '(newX, newY, newWidth, newHeight) := target_rect w h (imgRatio s) in
  let scale := pxFactorValues !! pxIndex s in
  let scaledW := Math_floor (js_mul (Some (num_of_Z w)) scale) in
  let scaledH := Math_floor (js_mul (Some (num_of_Z h)) scale) in
  Frame (pxIndex s) (imgRatio s) w h false scale scaledW scaledH
    newX newY newWidth newHeight.

Definition render (s : state) : state := emit (Render (render_frame s)) s.

(** Lines 190-198.  The closure passed to [setTimeout] is [CbStep]. *)
Definition animatePixels (s : state) : state :=
  if (pxIndex s <? length pxFactorValues)%nat then
    (setTimeout CbStep 100 (render s)).2
  else s.

(** Lines 74-128.  Creating the listener and the triggers; their bodies
    are in [step] below.  A trigger whose start the page has already
    passed runs its [onEnter] while it is being created: here that is the
    event [ScrollTop] (or [ScrollBottom]) delivered right after the load,
    so a statement about the state the load callback leaves is a statement
    about a page that has not scrolled that far. *)
Definition initEvents (s : state) : state :=
  let s := emit (Bind BResize) (set_resize_bound true s) in
  let s := emit (Bind BEnterTop) (set_enter_top Live s) in
  let s :=
    match DOM_inner s with
    | Some _ => emit (Bind BParallax) (set_parallax_bound true s)
    | None => s
    end in
  emit (Bind BEnterBottom) (set_enter_bottom Live s).

(** Lines 58-66: [img.onload]. *)
Definition onload (imgWidth imgHeight : Z) (s : state) : state :=
  let s := set_imgRatio
             (js_div (Some (num_of_Z imgWidth)) (Some (num_of_Z imgHeight))) s in
  let s := setCanvasSize s in
  let s := render s in
  initEvents s.

(** Lines 80-87: the listener itself, run at each [resize] event. *)
Definition on_resize (s : state) : state :=
  let s := clearTimeout (resizeTimeout s) s in
  let '(id, s) := setTimeout CbResize 100 s in
  set_resizeTimeout (Some id) s.

(** The body of a timer's closure. *)
Definition run_callback (c : callback) (s : state) : state :=
  match c with
  | CbResize =>
      let s := setCanvasSize s in
      let s := set_pxIndex (length pxFactorValues - 1)%nat s in
      render s
  | CbStep =>
      let s := set_pxIndex (S (pxIndex s)) s in
      animatePixels s
  end.

(** Lines 94-97 and 121-125: the [onEnter] of the two triggers. *)
Definition onEnter_top (s : state) : state :=
  animatePixels (set_pxIndex 0 s).

Definition onEnter_bottom (s : state) : state := emit (SetOpacity 1) s.

(** *** The event loop *)

(** What the host can deliver.  [ImgLoad] carries the intrinsic size of
    the decoded image, [WindowResize] the layout box of the wrapper after
    the resize.  [TimerFire id] runs a pending timer whose delay has
    elapsed; the host may be late, never early. *)
Inductive event :=
| ImgLoad (imgWidth imgHeight : Z)
| WindowResize (width height : Z)
| Elapse (ms : nat)
| TimerFire (id : nat)
| ScrollTop
| ScrollBottom.

Definition is_due (t : timer) (s : state) : bool :=
  (armed t + delay t <=? clock s)%nat.

(** An event that is not enabled (a timer that is not pending or not yet
    due, a trigger that is absent or spent) leaves the state as it is.
    The host delivers one [load] event for an image whose [src] is
    assigned once, as line 55 does; [img.onload] itself has no guard, and
    a second [ImgLoad] is skipped here only because the host sends none.
    A trigger made with [once: true] is killed by its first [onEnter]:
    that is the library's behaviour, taken as given. *)
Definition step (s : state) (e : event) : state :=
  match e with
  | ImgLoad iw ih =>
      if img_pending s then onload iw ih (set_img_pending false s) else s
  | WindowResize ow oh =>
      let s := set_offset ow oh s in
      if resize_bound s then on_resize s else s
  | Elapse ms => set_clock (clock s + ms)%nat s
  | TimerFire id =>
      match timers s !! id with
      | Some t =>
          if is_due t s then
            run_callback (cb t)
              (set_timers (next_timer s) (delete id (timers s)) s)
          else s
      | None => s
      end
  | ScrollTop =>
      match enter_top s with
      | Live => onEnter_top (set_enter_top Spent s)
      | _ => s
      end
  | ScrollBottom =>
      match enter_bottom s with
      | Live => onEnter_bottom (set_enter_bottom Spent s)
      | _ => s
      end
  end.

Definition run (s : state) (evs : list event) : state := fold_left step evs s.

(** Lines 6-25 and 31-56: the state once the constructor has returned.
    The canvas has just been created (300 by 150 is the default size of a
    canvas element), the load is in flight; [width] and [height] are the
    layout box of the parent of the image. *)
Definition init (width height : Z) : state :=
  State None None 0 300 150 None true width height 0 0 ∅
    false Absent Absent false [].

(** The frames drawn so far, oldest first. *)
Definition renders (s : state) : list frame :=
  omap (λ e, match e with Render f => Some f | _ => None end) (effects s).

(** The pending timers that run a given closure. *)
Definition pending (c : callback) (s : state) : gmap nat timer :=
  filter (λ kt, cb kt.2 = c) (timers s).
End Content.

Arguments frame : clear implicits.
Arguments effect : clear implicits.
Arguments state : clear implicits.

(** *** The constructor and the document *)

Section Document.
Context {node : Type} `{EqDecision node}.

(** [el.nextSibling] among the children of the parent of [el]: [null]
    ([None]) for the last child. *)
Fixpoint nextSibling (el : node) (kids : list node) : option node :=
  match kids with
  | [] => None
  | k :: kids => if decide (k = el) then head kids else nextSibling el kids
  end.

(** [parent.insertBefore(new, ref)] for a node [new] that is not in the
    tree yet: it goes before the child [ref], or to the end when [ref]
    is [null]; a [ref] that is not a child is an error ([None]). *)
Fixpoint insertBefore (new : node) (ref : option node) (kids : list node)
  : option (list node) :=
  match ref, kids with
  | None, _ => Some (kids ++ [new])
  | Some _, [] => None
  | Some r, k :: kids' =>
      if decide (k = r) then Some (new :: kids)
      else (k ::.) <$> insertBefore new ref kids'
  end.

(** Line 45.  [parent] is the child list of [el.parentNode], [None] for
    an image that is not in a document: the property access on [null]
    throws. *)
Definition insert_canvas (canvas el : node) (parent : option (list node))
  : option (list node) :=
  kids ← parent; insertBefore canvas (nextSibling el kids) kids.
End Document.

(** ** Observations on runs and scenarios *)

#[global] Instance event_eq_dec : EqDecision event.
Proof. solve_decision. Defined.

(** The time that has passed since the latest [resize] event of a run,
    if there was one. *)
Definition quiet_since (evs : list event) : option nat :=
  fold_left
    (λ q e,
       match e with
       | WindowResize _ _ => Some 0%nat
       | Elapse ms => (λ n, n + ms)%nat <$> q
       | _ => q
       end)
    evs None.

(** A 400 by 200 wrapper and an 800 by 400 image, in binary64: the load,
    the top trigger, then the timers fired as they fall due. *)
Definition loaded : state spec_float :=
  step (init 400 200) (ImgLoad 800 400).

Definition to_last_step : list event :=
  [ImgLoad 800 400; ScrollTop; Elapse 100; TimerFire 0; Elapse 100;
   TimerFire 1; Elapse 100; TimerFire 2; Elapse 100].

Definition revealed : state spec_float :=
  run (init 400 200) (to_last_step ++ [TimerFire 3]).

(** A 300 by 300 wrapper and a 600 by 300 image, redrawn by the debounced
    resize body. *)
Definition square_trace : list event :=
  [ImgLoad 600 300; WindowResize 300 300; Elapse 100; TimerFire 0].

Definition square64 : state spec_float := run (init 300 300) square_trace.


Section Observations.
Context {N : Type} `{JsNumber N}.

(** The handles of the timers armed so far for a given closure. *)
Definition arms (c : callback) (s : state N) : list nat :=
  omap (λ e, match e with
             | SetTimeout id c' _ => if decide (c' = c) then Some id else None
             | _ => None
             end) (effects s).

(** The index a frame drawn now would come from: [pxIndex], or the last
    index once the sequence has run out. *)
Definition level (s : state N) : nat :=
  Nat.min (pxIndex s) (length (pxFactorValues (N:=N)) - 1).
End Observations.

(** The number of [resize] events in a run. *)
Definition resize_events (evs : list event) : nat :=
  length (omap (λ e, match e with
                     | WindowResize w h => Some (w, h)
                     | _ => None
                     end) evs).

(** The host lets [d] time units pass and fires the timer [id], for each
    delay of [ds] in turn and with consecutive handles. *)
Fixpoint fire_chain (id : nat) (ds : list nat) : list event :=
  match ds with
  | [] => []
  | d :: ds => Elapse d :: TimerFire id :: fire_chain (S id) ds
  end.

(** [p] holds of every integer from 0 up to [n - 1]. *)
Fixpoint all_below (n : nat) (p : Z → bool) : bool :=
  match n with
  | O => true
  | S n => p (Z.of_nat n) && all_below n p
  end.

(** Equality of two binary64 values that are not NaN or infinite. *)
Definition sf_eqb (x y : spec_float) : bool :=
  match x, y with
  | S754_zero a, S754_zero b => eqb a b
  | S754_finite a m e, S754_finite b m' e' =>
      eqb a b && (m =? m')%positive && (e =? e')
  | _, _ => false
  end.

(** [Math.floor(w * scale)] in binary64 is the integer quotient
    [w * c / 100], for each scale paired with its value in hundredths. *)
Definition floor_agrees (scales : list (spec_float * Z)) (w : Z) : bool :=
  forallb (λ xc,
     sf_eqb (Binary64.floor
               (SFmul Binary64.prec Binary64.emax (Binary64.of_Z w) xc.1))
            (Binary64.of_Z (w * xc.2 / 100))) scales.

(** ** Invariants of the event loop *)

Section Invariant.
Context {N : Type} `{JsNumber N}.

(** The registrations made so far, oldest first. *)
Definition bindings (s : state N) : list binding :=
  omap (λ e, match e with Bind b => Some b | _ => None end) (effects s).

(** What a logged effect must satisfy: a frame is drawn from a valid
    index and a decoded image; the parallax timeline is never created. *)
Definition effect_ok (e : effect N) : Prop :=
  match e with
  | Render f =>
      (f_index f < length (pxFactorValues (N:=N)))%nat ∧ is_Some (f_ratio f)
  | Bind b => b ≠ BParallax
  | _ => True
  end.

Record Inv (s : state N) : Prop := {
  inv_inner : DOM_inner s = None;
  inv_parallax : parallax_bound s = false;
  inv_before_load :
    img_pending s = true →
    timers s = ∅ ∧ effects s = [] ∧ resize_bound s = false ∧
    enter_top s = Absent ∧ enter_bottom s = Absent ∧ imgRatio s = None ∧
    pxIndex s = 0%nat ∧ resizeTimeout s = None;
  inv_after_load :
    img_pending s = false → is_Some (imgRatio s) ∧ resize_bound s = true;
  inv_bindings :
    bindings s =
      if img_pending s then [] else [BResize; BEnterTop; BEnterBottom];
  inv_timer :
    ∀ id t, timers s !! id = Some t →
      (id < next_timer s)%nat ∧ delay t = 100%nat ∧ (armed t ≤ clock s)%nat;
  inv_debounce :
    ∀ id t, timers s !! id = Some t → cb t = CbResize →
      resizeTimeout s = Some id;
  inv_handle :
    ∀ id, resizeTimeout s = Some id →
      (id < next_timer s)%nat ∧
      SetTimeout id CbResize 100 ∈ effects s ∧
      ∀ t, timers s !! id = Some t → cb t = CbResize;
  inv_cleared :
    ∀ id, ClearTimeout (Some id) ∈ effects s →
      SetTimeout id CbResize 100 ∈ effects s;
  inv_fresh :
    ∀ id c ms, SetTimeout id c ms ∈ effects s → (id < next_timer s)%nat;
  inv_once :
    ∀ id c c' ms ms',
      SetTimeout id c ms ∈ effects s → SetTimeout id c' ms' ∈ effects s →
      c = c';
  inv_sequencer :
    ∀ id t, timers s !! id = Some t → cb t = CbStep →
      enter_top s = Spent ∧
      (pxIndex s < length (pxFactorValues (N:=N)))%nat ∧
      ∀ id' t', timers s !! id' = Some t' → cb t' = CbStep → id' = id;
  inv_index : (pxIndex s ≤ length (pxFactorValues (N:=N)))%nat;
  inv_effects : Forall effect_ok (effects s);
}.
End Invariant.

Ltac split_lookup :=
  repeat match goal with
  | H : <[_:=_]> _ !! _ = Some _ |- _ =>
      apply lookup_insert_Some in H as [[? ?]|[? H]]
  | H : delete _ _ !! _ = Some _ |- _ =>
      apply lookup_delete_Some in H as [? H]
  end; simplify_eq/=.

Ltac learn H :=
  let T := type of H in
  lazymatch goal with
  | _ : T |- _ => fail
  | _ => pose proof H
  end.

(** Instantiate the timer clauses of [Inv] at every lookup in the
    context. *)
Ltac saturate HI :=
  repeat match goal with
  | Hl : timers ?s !! ?id = Some ?t |- _ => learn (inv_timer s HI id t Hl)
  | Hl : timers ?s !! ?id = Some ?t, Hc : cb ?t = CbResize |- _ =>
      learn (inv_debounce s HI id t Hl Hc)
  | Hl : timers ?s !! ?id = Some ?t, Hc : cb ?t = CbStep |- _ =>
      learn (inv_sequencer s HI id t Hl Hc)
  | Hr : resizeTimeout ?s = Some ?id |- _ => learn (inv_handle s HI id Hr)
  | Hc : ClearTimeout (Some ?id) ∈ effects ?s |- _ =>
      learn (inv_cleared s HI id Hc)
  | Hc : SetTimeout ?id ?c ?ms ∈ effects ?s |- _ =>
      learn (inv_fresh s HI id c ms Hc)
  | Hc : SetTimeout ?id ?c ?ms ∈ effects ?s,
    Hc' : SetTimeout ?id ?c' ?ms' ∈ effects ?s |- _ =>
      learn (inv_once s HI id c c' ms ms' Hc Hc')
  end.

(** Two sequencer timers pending at once contradict [inv_sequencer]. *)
Ltac clash :=
  match goal with
  | Hu : ∀ id' t', timers ?s !! id' = Some t' → cb t' = CbStep → id' = ?id,
    Hl : timers ?s !! ?i = Some ?t, Hc : cb ?t = CbStep, Hn : ?id ≠ ?i |- _ =>
      destruct Hn; symmetry; exact (Hu i t Hl Hc)
  end.

Ltac split_elem_of :=
  repeat match goal with
  | H : _ ∈ _ ++ _ |- _ => apply elem_of_app in H as [H|H]
  | H : _ ∈ [_] |- _ => apply list_elem_of_singleton in H
  | H : _ ∈ [] |- _ => by apply elem_of_nil in H
  end; simplify_eq/=.

Ltac inv_round HI :=
  intros; split_lookup; split_elem_of; saturate HI; destruct_and?;
  repeat match goal with |- _ ∧ _ => split end.

Section InvariantProofs.
Context {N : Type} `{JsNumber N}.

Lemma pxFactorValues_length : length (pxFactorValues (N:=N)) = 5%nat.
Proof. reflexivity. Qed.

Lemma run_snoc (s : state N) evs e : run s (evs ++ [e]) = step (run s evs) e.
Proof. unfold run. by rewrite fold_left_app. Qed.

Lemma run_app (s : state N) evs1 evs2 :
  run s (evs1 ++ evs2) = run (run s evs1) evs2.
Proof. unfold run. by rewrite fold_left_app. Qed.

Lemma run_cons (s : state N) e evs : run s (e :: evs) = run (step s e) evs.
Proof. reflexivity. Qed.

Lemma render_frame_index (s : state N) : f_index (render_frame s) = pxIndex s.
Proof. unfold render_frame. by destruct (target_rect _ _ _) as [[[? ?] ?] ?]. Qed.

Lemma render_frame_ratio (s : state N) : f_ratio (render_frame s) = imgRatio s.
Proof. unfold render_frame. by destruct (target_rect _ _ _) as [[[? ?] ?] ?]. Qed.

Lemma render_frame_scale (s : state N) :
  f_scale (render_frame s) = pxFactorValues !! pxIndex s.
Proof. unfold render_frame. by destruct (target_rect _ _ _) as [[[? ?] ?] ?]. Qed.

Lemma render_frame_size (s : state N) :
  f_w (render_frame s) = canvas_width s ∧ f_h (render_frame s) = canvas_height s.
Proof. unfold render_frame. by destruct (target_rect _ _ _) as [[[? ?] ?] ?]. Qed.

Lemma render_ok (s : state N) :
  (pxIndex s < length (pxFactorValues (N:=N)))%nat → is_Some (imgRatio s) →
  effect_ok (Render (render_frame s)).
Proof. intros. simpl. by rewrite render_frame_index, render_frame_ratio. Qed.

Lemma Inv_init ow oh : Inv (init ow oh).
Proof.
  split; simpl; try done.
  all: try (intros id t Hl; by rewrite lookup_empty in Hl).
  all: try (intros; split_elem_of).
  lia.
Qed.

Lemma Inv_loaded s :
  Inv s →
  resize_bound s = true ∨ enter_top s ≠ Absent ∨ enter_bottom s ≠ Absent ∨
    timers s ≠ ∅ →
  img_pending s = false.
Proof.
  intros HI Hor. destruct (img_pending s) eqn:Hp; [|done].
  destruct (inv_before_load s HI Hp) as (Ht & He & Hr & Het & Heb & Hir & Hpx).
  destruct Hor as [?|[?|[?|?]]]; congruence.
Qed.

Ltac inv_tac HI Hp :=
  inv_round HI; try inv_round HI;
  try first
    [ lia | congruence | done | solve [eauto] | clash
    | by apply (inv_after_load _ HI)
    | pose proof (inv_bindings _ HI) as Hbs; unfold bindings in *; simpl;
      rewrite ?omap_app; simpl; rewrite ?app_nil_r; by rewrite Hbs, Hp
    | rewrite ?elem_of_app, ?list_elem_of_singleton; solve [eauto 6]
    | rewrite ?Forall_app, ?Forall_singleton; split_and?;
      first [ done | apply HI
            | apply render_ok; simpl;
              [try lia | by apply (inv_after_load _ HI)] ] ].

Lemma Inv_step s e : Inv s → Inv (step s e).
Proof.
  intros HI. destruct e as [iw ih|ow oh|ms|id| |]; simpl.
  - (* ImgLoad *)
    destruct (img_pending s) eqn:Hp; [|done].
    destruct (inv_before_load s HI Hp)
      as (Ht & He & Hr & Het & Heb & Hir & Hpx & Hrt).
    unfold onload, initEvents, render, setCanvasSize. simpl.
    rewrite (inv_inner s HI). simpl.
    split; simpl; try done; try apply HI.
    all: unfold bindings; simpl; rewrite ?He; simpl; try done.
    all: try (intros id t Hl; by rewrite Ht, lookup_empty in Hl).
    + rewrite Hrt. done.
    + intros id Hc.
      repeat (apply elem_of_cons in Hc as [Hc|Hc]; [done|]).
      by apply elem_of_nil in Hc.
    + intros id c ms Hc.
      repeat (apply elem_of_cons in Hc as [Hc|Hc]; [done|]).
      by apply elem_of_nil in Hc.
    + intros id c c' ms ms' Hc.
      repeat (apply elem_of_cons in Hc as [Hc|Hc]; [done|]).
      by apply elem_of_nil in Hc.
    + rewrite !Forall_cons, Forall_nil. split_and!; try done.
      apply render_ok; simpl; [rewrite Hpx; lia | done].
  - (* WindowResize *)
    destruct (resize_bound s) eqn:Hb; simpl.
    2:{ split; simpl; try apply HI. }
    assert (Hp : img_pending s = false) by (apply Inv_loaded; auto).
    unfold on_resize, clearTimeout, setTimeout. simpl.
    destruct (resizeTimeout s) as [h|] eqn:Hrt; simpl.
    + split; simpl; try apply HI; try congruence.
      all: inv_tac HI Hp.
    + split; simpl; try apply HI; try congruence.
      all: inv_tac HI Hp.
  - (* Elapse *)
    destruct (img_pending s) eqn:Hp.
    all: split; simpl; try apply HI; try congruence.
    all: inv_tac HI Hp.
  - (* TimerFire *)
    destruct (timers s !! id) as [t|] eqn:Hl; [|done].
    destruct (is_due t s) eqn:Hdue; [|done].
    assert (Hp : img_pending s = false).
    { apply Inv_loaded; auto. do 3 right. intros He.
      by rewrite He, lookup_empty in Hl. }
    destruct t as [a d [|]]; simpl.
    + (* the debounced resize body *)
      unfold render, setCanvasSize. simpl.
      split; simpl; try apply HI; try congruence.
      all: inv_tac HI Hp.
    + (* a step of the sequencer *)
      pose proof (inv_sequencer s HI id _ Hl eq_refl) as (Het & Hlt' & Huniq).
      unfold animatePixels. simpl.
      destruct (S (pxIndex s) <? 5)%nat eqn:Hlt; simpl.
      * apply Nat.ltb_lt in Hlt.
        split; simpl; try apply HI; try congruence.
        all: inv_tac HI Hp.
      * apply Nat.ltb_ge in Hlt.
        split; simpl; try apply HI; try congruence.
        all: inv_tac HI Hp.
  - (* ScrollTop *)
    destruct (enter_top s) eqn:Het; try done.
    assert (Hp : img_pending s = false)
      by (apply Inv_loaded; auto; right; left; congruence).
    unfold onEnter_top, animatePixels, render. simpl.
    split; simpl; try apply HI; try congruence.
    all: inv_tac HI Hp.
  - (* ScrollBottom *)
    destruct (enter_bottom s) eqn:Heb; try done.
    assert (Hp : img_pending s = false)
      by (apply Inv_loaded; auto; right; right; left; congruence).
    unfold onEnter_bottom. split; simpl; try apply HI; try congruence.
    all: inv_tac HI Hp.
Qed.

Theorem Inv_run ow oh evs : Inv (run (init ow oh) evs).
Proof.
  induction evs as [|e evs IH] using rev_ind.
  - apply Inv_init.
  - rewrite run_snoc. by apply Inv_step.
Qed.

Lemma Inv_run_from s evs : Inv s → Inv (run s evs).
Proof.
  revert s. induction evs as [|e evs IH]; intros s HI; [done|].
  rewrite run_cons. apply IH. by apply Inv_step.
Qed.
End InvariantProofs.

(** ** Rendering waits for the image; the index stays in range *)

Section Safety.
Context {N : Type} `{JsNumber N}.

Lemma elem_of_renders (s : state N) f : f ∈ renders s ↔ Render f ∈ effects s.
Proof.
  unfold renders. rewrite list_elem_of_omap. split.
  - intros ([f'| | | |] & Hin & Heq); by simplify_eq.
  - intros Hin. by exists (Render f).
Qed.

Lemma renders_ok (s : state N) f :
  Inv s → f ∈ renders s →
  (f_index f < length (pxFactorValues (N:=N)))%nat ∧ is_Some (f_ratio f).
Proof.
  intros HI Hin. apply elem_of_renders in Hin.
  pose proof (inv_effects s HI) as Hall.
  rewrite Forall_forall in Hall. exact (Hall _ Hin).
Qed.

(** Until [img.onload] is delivered nothing moves but the clock and the
    layout box. *)
Lemma pending_until_load ow oh evs :
  (∀ iw ih, ImgLoad iw ih ∉ evs) →
  img_pending (run (init (N:=N) ow oh) evs) = true.
Proof.
  induction evs as [|e evs IH] using rev_ind; intros Hno; [done|].
  rewrite run_snoc.
  assert (Hp : img_pending (run (init ow oh) evs) = true).
  { apply IH. intros iw ih Hin. apply (Hno iw ih), elem_of_app. by left. }
  pose proof (Inv_run ow oh evs) as HI.
  destruct (inv_before_load _ HI Hp) as (Ht & He & Hr & Het & Heb & _).
  destruct e as [iw ih|w h|ms|id| |]; simpl.
  - destruct (Hno iw ih). apply elem_of_app. right. by apply list_elem_of_singleton.
  - by rewrite Hr.
  - done.
  - by rewrite Ht, lookup_empty.
  - by rewrite Het.
  - by rewrite Heb.
Qed.

(** C9. [render] is never invoked before the load completes: every frame
    ever drawn was computed from a defined [imgRatio]; while the load is
    in flight no listener, trigger or timer exists and nothing has been
    drawn; and a run in which [onload] is never delivered draws
    nothing. *)
Theorem render_only_after_load ow oh evs :
  let s := run (init (N:=N) ow oh) evs in
  (∀ f, f ∈ renders s → is_Some (f_ratio f)) ∧
  (img_pending s = true →
     effects s = [] ∧ timers s = ∅ ∧ resize_bound s = false ∧
     enter_top s = Absent ∧ enter_bottom s = Absent) ∧
  ((∀ iw ih, ImgLoad iw ih ∉ evs) → img_pending s = true ∧ renders s = []).
Proof.
  intros s. pose proof (Inv_run ow oh evs) as HI. fold s in HI.
  split_and!.
  - intros f Hin. by apply (renders_ok s f HI).
  - intros Hp. destruct (inv_before_load _ HI Hp) as (? & ? & ? & ? & ? & _).
    done.
  - intros Hno. pose proof (pending_until_load ow oh evs Hno) as Hp.
    split; [done|]. unfold renders.
    destruct (inv_before_load _ HI Hp) as (_ & He & _). fold s. by rewrite He.
Qed.

(** C10. [DOM.inner] starts as [null] and nothing assigns it, so the
    branch of [initEvents] that creates the parallax timeline is never
    taken: the registrations are the resize listener and the two
    viewport triggers, made once, when the image has loaded. *)
Theorem parallax_never_registered ow oh evs :
  let s := run (init (N:=N) ow oh) evs in
  DOM_inner (init (N:=N) ow oh) = None ∧
  DOM_inner s = None ∧
  parallax_bound s = false ∧
  (BParallax ∉ bindings s) ∧
  bindings s =
    if img_pending s then [] else [BResize; BEnterTop; BEnterBottom].
Proof.
  intros s. pose proof (Inv_run ow oh evs) as HI. fold s in HI.
  split_and!; try done; try apply HI.
  rewrite (inv_bindings s HI). destruct (img_pending s).
  - apply not_elem_of_nil.
  - intros Hin. repeat (apply elem_of_cons in Hin as [Hin|Hin]; [done|]).
    by apply elem_of_nil in Hin.
Qed.

(** C6. [pxIndex] is 0 after construction and never exceeds the length of
    [pxFactorValues]; no frame is drawn from an index outside the list;
    and each event changes the index as stated: the top trigger resets it
    to 0, the debounced resize body sets it to the last index, a step of
    the sequencer adds one (and only fires below the length), everything
    else leaves it alone. *)
Theorem pxIndex_bounded ow oh evs :
  let s := run (init (N:=N) ow oh) evs in
  pxIndex (init (N:=N) ow oh) = 0%nat ∧
  (pxIndex s ≤ length (pxFactorValues (N:=N)))%nat ∧
  (∀ f, f ∈ renders s → (f_index f < length (pxFactorValues (N:=N)))%nat) ∧
  ∀ e,
    (pxIndex (step s e) ≤ length (pxFactorValues (N:=N)))%nat ∧
    match e with
    | ScrollTop =>
        pxIndex (step s e) =
          match enter_top s with Live => 0%nat | _ => pxIndex s end
    | TimerFire id =>
        match timers s !! id with
        | Some t =>
            if is_due t s then
              match cb t with
              | CbResize =>
                  pxIndex (step s e) =
                    (length (pxFactorValues (N:=N)) - 1)%nat
              | CbStep =>
                  pxIndex (step s e) = S (pxIndex s) ∧
                  (pxIndex s < length (pxFactorValues (N:=N)))%nat
              end
            else pxIndex (step s e) = pxIndex s
        | None => pxIndex (step s e) = pxIndex s
        end
    | _ => pxIndex (step s e) = pxIndex s
    end.
Proof.
  intros s. pose proof (Inv_run ow oh evs) as HI. fold s in HI.
  split_and!; try done; try apply HI.
  - intros f Hin. by apply (renders_ok s f HI).
  - intros e. split; [apply (inv_index _ (Inv_step s e HI))|].
    destruct e as [iw ih|w h|ms|id| |]; simpl.
    + destruct (img_pending s); [|done].
      unfold onload, initEvents. simpl. by destruct (DOM_inner s).
    + destruct (resize_bound s); [|done].
      unfold on_resize. simpl. by destruct (resizeTimeout s).
    + done.
    + destruct (timers s !! id) as [t|] eqn:Hl; [|done].
      destruct (is_due t s); [|done].
      destruct (cb t) eqn:Hcb; simpl; [done|].
      destruct (inv_sequencer s HI id t Hl Hcb) as (_ & Hlt & _).
      split; [|done]. unfold animatePixels. simpl.
      by destruct (S (pxIndex s) <? 5)%nat.
    + by destruct (enter_top s).
    + by destruct (enter_bottom s).
Qed.
End Safety.

(** ** The step sequencer *)

Section Sequencer.
Context {N : Type} `{JsNumber N}.

Lemma pending_lookup c (s : state N) id t :
  pending c s !! id = Some t ↔ timers s !! id = Some t ∧ cb t = c.
Proof. unfold pending. by rewrite map_lookup_filter_Some. Qed.

Lemma pending_empty c (s : state N) :
  pending c s = ∅ ↔ ∀ id t, timers s !! id = Some t → cb t ≠ c.
Proof.
  unfold pending. rewrite map_empty_filter. unfold map_Forall. done.
Qed.

Lemma pending_singleton c (s : state N) id t :
  timers s !! id = Some t → cb t = c →
  (∀ id' t', timers s !! id' = Some t' → cb t' = c → id' = id) →
  pending c s = {[id := t]}.
Proof.
  intros Hl Hc Hu. apply map_eq. intros i. apply option_eq. intros x.
  rewrite pending_lookup, lookup_singleton_Some. split.
  - intros [Hi Hx]. pose proof (Hu i x Hi Hx) as ->. split; congruence.
  - intros [<- <-]. done.
Qed.

(** The sequencer has at most one timer in flight. *)
Lemma one_step_timer (s : state N) id t :
  Inv s → timers s !! id = Some t → cb t = CbStep →
  pending CbStep s = {[id := t]}.
Proof.
  intros HI Hl Hc. apply pending_singleton; try done.
  by destruct (inv_sequencer s HI id t Hl Hc) as (_ & _ & Hu).
Qed.

(** Firing a sequencer timer, whatever the index. *)
Lemma fire_step (s : state N) id t :
  Inv s → timers s !! id = Some t → cb t = CbStep → is_due t s = true →
  let s' := step s (TimerFire id) in
  pxIndex s' = S (pxIndex s) ∧
  if (S (pxIndex s) <? length (pxFactorValues (N:=N)))%nat then
    ∃ f, f_index f = S (pxIndex s) ∧
         f_scale f = pxFactorValues !! S (pxIndex s) ∧
         effects s' =
           effects s ++ [Render f; SetTimeout (next_timer s) CbStep 100] ∧
         timers s' =
           <[next_timer s := Timer (clock s) 100 CbStep]> (delete id (timers s)) ∧
         pending CbStep s' = {[next_timer s := Timer (clock s) 100 CbStep]}
  else
    effects s' = effects s ∧ timers s' = delete id (timers s) ∧
    next_timer s' = next_timer s ∧ pending CbStep s' = ∅.
Proof.
  intros HI Hl Hc Hdue s'.
  pose proof (Inv_step s (TimerFire id) HI) as HI'. fold s' in HI'.
  destruct (inv_sequencer s HI id t Hl Hc) as (Het & Hlt & Hu).
  assert (Hs' : s' = animatePixels (set_pxIndex (S (pxIndex s))
                 (set_timers (next_timer s) (delete id (timers s)) s))).
  { unfold s'. simpl. by rewrite Hl, Hdue, Hc. }
  unfold animatePixels in Hs'. simpl in Hs'.
  change (length (pxFactorValues (N:=N))) with 5%nat.
  destruct (S (pxIndex s) <? 5)%nat eqn:Hlt5.
  - split; [by rewrite Hs'|].
    eexists. split_and!.
    3:{ rewrite Hs'. simpl. rewrite <- app_assoc. reflexivity. }
    + by rewrite render_frame_index.
    + by rewrite render_frame_scale.
    + by rewrite Hs'.
    + apply (one_step_timer s' _ _ HI'); [|done].
      rewrite Hs'. simpl. apply lookup_insert_eq.
  - split; [by rewrite Hs'|]. split_and!; try by rewrite Hs'.
    apply pending_empty. intros i x Hi Hx. rewrite Hs' in Hi. simpl in Hi.
    apply lookup_delete_Some in Hi as [Hne Hi]. by destruct Hne, (Hu i x).
Qed.

Lemma renders_snoc_render (l : list (effect N)) f :
  omap (λ e : effect N, match e with Render f => Some f | _ => None end)
    (l ++ [Render f]) =
  omap (λ e : effect N, match e with Render f => Some f | _ => None end) l ++ [f].
Proof. by rewrite omap_app. Qed.

(** Once the trigger is spent and no sequencer timer is pending, the
    sequencer stays silent: an event leaves the frames as they are or
    adds one frame at the last index (the resize path). *)
Lemma done_step (s : state N) e :
  Inv s → enter_top s = Spent → pending CbStep s = ∅ →
  let s' := step s e in
  enter_top s' = Spent ∧ pending CbStep s' = ∅ ∧
  (renders s' = renders s ∨
   ∃ f, f_index f = (length (pxFactorValues (N:=N)) - 1)%nat ∧
        renders s' = renders s ++ [f]).
Proof.
  intros HI Het Hnone s'.
  assert (Hp : img_pending s = false)
    by (apply Inv_loaded; auto; right; left; congruence).
  rewrite pending_empty in Hnone.
  unfold s'. destruct e as [iw ih|w h|ms|id| |]; simpl.
  - rewrite Hp. split_and!; [done|by apply pending_empty|by left].
  - destruct (resize_bound s); simpl.
    2:{ split_and!; [done|by apply pending_empty|by left]. }
    unfold on_resize, clearTimeout, setTimeout. simpl.
    destruct (resizeTimeout s) as [rt|]; simpl.
    all: split_and!; [done| |left].
    all: try (apply pending_empty; simpl; intros i x Hi Hx; split_lookup;
              by eapply Hnone).
    all: unfold renders; simpl; rewrite !omap_app; simpl;
      by rewrite !app_nil_r.
  - split_and!; [done|by apply pending_empty|by left].
  - destruct (timers s !! id) as [t|] eqn:Hl.
    2:{ split_and!; [done|by apply pending_empty|by left]. }
    destruct (is_due t s).
    2:{ split_and!; [done|by apply pending_empty|by left]. }
    destruct (cb t) eqn:Hcb; [|by destruct (Hnone id t)].
    simpl. unfold render, setCanvasSize. simpl. split_and!; [done| |right].
    + apply pending_empty; simpl; intros i x Hi Hx; split_lookup.
      by eapply Hnone.
    + eexists. split; [|unfold renders; simpl; apply renders_snoc_render].
      by rewrite render_frame_index.
  - rewrite Het. split_and!; [done|by apply pending_empty|by left].
  - destruct (enter_bottom s); simpl.
    1,3: split_and!; [done|by apply pending_empty|by left].
    split_and!; [done|by apply pending_empty|left].
    unfold renders; simpl; rewrite !omap_app; simpl; by rewrite !app_nil_r.
Qed.

Lemma done_run (s : state N) evs :
  Inv s → enter_top s = Spent → pending CbStep s = ∅ →
  let s' := run s evs in
  enter_top s' = Spent ∧ pending CbStep s' = ∅ ∧
  ∃ fs, renders s' = renders s ++ fs ∧
        Forall (λ f, f_index f = (length (pxFactorValues (N:=N)) - 1)%nat) fs.
Proof.
  induction evs as [|e evs IH] using rev_ind; intros HI Het Hnone; simpl.
  - split_and!; try done. exists []. by rewrite app_nil_r.
  - destruct (IH HI Het Hnone) as (Het' & Hnone' & fs & Hfs & Hall).
    rewrite run_snoc.
    destruct (done_step (run s evs) e (Inv_run_from s evs HI) Het' Hnone')
      as (? & ? & Hr).
    split_and!; try done. destruct Hr as [Hr|(f & Hf & Hr)].
    + exists fs. by rewrite Hr.
    + exists (fs ++ [f]). rewrite Hr, Hfs, <- app_assoc. split; [done|].
      apply Forall_app. split; [done|]. by apply Forall_singleton.
Qed.

(** C5. From the top trigger on, the index is set to 0 and rendered, and
    each firing of a sequencer timer adds exactly one to it; below the
    length the firing renders at the new index and only then arms the
    next timer, at the length it renders nothing and arms nothing, and
    from then on nothing but the resize path draws.  A timer that is not
    yet due does not fire. *)
Theorem sequencer_steps ow oh evs :
  let s := run (init (N:=N) ow oh) evs in
  (enter_top s = Live →
     let s' := step s ScrollTop in
     pending CbStep s = ∅ ∧ pxIndex s' = 0%nat ∧ enter_top s' = Spent ∧
     ∃ f, f_index f = 0%nat ∧
          effects s' =
            effects s ++ [Render f; SetTimeout (next_timer s) CbStep 100] ∧
          pending CbStep s' =
            {[next_timer s := Timer (clock s) 100 CbStep]}) ∧
  (∀ id t, timers s !! id = Some t → cb t = CbStep →
     delay t = 100%nat ∧
     (is_due t s = false → step s (TimerFire id) = s) ∧
     (is_due t s = true →
        let s' := step s (TimerFire id) in
        pxIndex s' = S (pxIndex s) ∧
        if (S (pxIndex s) <? length (pxFactorValues (N:=N)))%nat then
          ∃ f, f_index f = S (pxIndex s) ∧
               effects s' =
                 effects s ++
                   [Render f; SetTimeout (next_timer s) CbStep 100] ∧
               pending CbStep s' =
                 {[next_timer s := Timer (clock s) 100 CbStep]}
        else
          effects s' = effects s ∧ pending CbStep s' = ∅ ∧
          ∀ evs',
            pending CbStep (run s' evs') = ∅ ∧
            ∃ fs, renders (run s' evs') = renders s' ++ fs ∧
                  Forall (λ f, f_index f =
                                 (length (pxFactorValues (N:=N)) - 1)%nat) fs)).
Proof.
  intros s. pose proof (Inv_run ow oh evs) as HI. fold s in HI. split.
  - intros Het s'.
    pose proof (Inv_step s ScrollTop HI) as HI'. fold s' in HI'.
    assert (Hs' : s' = animatePixels (set_pxIndex 0 (set_enter_top Spent s))).
    { unfold s'. simpl. by rewrite Het. }
    unfold animatePixels in Hs'. simpl in Hs'.
    split_and!; try by rewrite Hs'.
    + apply pending_empty. intros id t Hl Hc.
      destruct (inv_sequencer s HI id t Hl Hc) as (? & _). congruence.
    + eexists. split_and!.
      2:{ rewrite Hs'. simpl. rewrite <- app_assoc. reflexivity. }
      * by rewrite render_frame_index.
      * apply (one_step_timer s' _ _ HI'); [|done].
        rewrite Hs'. simpl. apply lookup_insert_eq.
  - intros id t Hl Hc. split_and!.
    + by destruct (inv_timer s HI id t Hl) as (_ & ? & _).
    + intros Hdue. simpl. by rewrite Hl, Hdue.
    + intros Hdue s'.
      destruct (fire_step s id t HI Hl Hc Hdue) as [Hpx Hrest].
      fold s' in Hpx, Hrest. split; [done|].
      destruct (S (pxIndex s) <? length (pxFactorValues (N:=N)))%nat.
      * destruct Hrest as (f & ? & ? & ? & ? & ?). by exists f.
      * destruct Hrest as (He & Ht & Hn & Hnone). split_and!; try done.
        intros evs'.
        assert (Het' : enter_top s' = Spent).
        { destruct (inv_sequencer s HI id t Hl Hc) as (Het & _).
          unfold s'. simpl. rewrite Hl, Hdue, Hc. simpl.
          unfold animatePixels. simpl.
          by destruct (S (pxIndex s) <? 5)%nat. }
        destruct (done_run s' evs' (Inv_step s _ HI) Het' Hnone)
          as (_ & ? & ?).
        done.
Qed.

(** C3, as the code has it.  The render at the last index is followed by
    one more [setTimeout]; it is the firing of that timer which ends the
    sequence: it moves the index to the length, draws nothing and arms
    nothing. *)
Theorem last_step_arms_a_final_timer ow oh evs id t :
  let s := run (init (N:=N) ow oh) evs in
  timers s !! id = Some t → cb t = CbStep → is_due t s = true →
  let s' := step s (TimerFire id) in
  (S (pxIndex s) = (length (pxFactorValues (N:=N)) - 1)%nat →
     ∃ f, f_index f = (length (pxFactorValues (N:=N)) - 1)%nat ∧
          f_scale f = Some (num_decimal 10 10) ∧
          effects s' =
            effects s ++ [Render f; SetTimeout (next_timer s) CbStep 100] ∧
          timers s' !! next_timer s = Some (Timer (clock s) 100 CbStep)) ∧
  (pxIndex s = (length (pxFactorValues (N:=N)) - 1)%nat →
     pxIndex s' = length (pxFactorValues (N:=N)) ∧
     effects s' = effects s ∧
     timers s' = delete id (timers s) ∧
     next_timer s' = next_timer s ∧
     pending CbStep s' = ∅).
Proof.
  intros s Hl Hc Hdue s'. pose proof (Inv_run ow oh evs) as HI. fold s in HI.
  destruct (fire_step s id t HI Hl Hc Hdue) as [Hpx Hrest].
  fold s' in Hpx, Hrest. change (length (pxFactorValues (N:=N))) with 5%nat in *.
  split; intros Hi.
  - replace (S (pxIndex s) <? 5)%nat with true in Hrest
      by (symmetry; apply Nat.ltb_lt; lia).
    destruct Hrest as (f & Hf & Hsc & He & Ht & _). exists f.
    split_and!; try done.
    + by rewrite Hf.
    + rewrite Hsc, Hi. done.
    + rewrite Ht. apply lookup_insert_eq.
  - replace (S (pxIndex s) <? 5)%nat with false in Hrest
      by (symmetry; apply Nat.ltb_ge; lia).
    destruct Hrest as (? & ? & ? & ?). split_and!; try done. lia.
Qed.
End Sequencer.

(** ** The load callback *)

Section Load.
Context {N : Type} `{JsNumber N}.

Lemma step_load (s0 : state N) iw ih :
  img_pending s0 = true → DOM_inner s0 = None →
  step s0 (ImgLoad iw ih) =
    let s1 := set_canvas (offsetWidth s0) (offsetHeight s0)
         (set_imgRatio (Some (num_div (num_of_Z iw) (num_of_Z ih)))
            (set_img_pending false s0)) in
    emit (Bind BEnterBottom) (set_enter_bottom Live
      (emit (Bind BEnterTop) (set_enter_top Live
         (emit (Bind BResize) (set_resize_bound true
            (emit (Render (render_frame s1)) s1)))))).
Proof.
  intros Hp Hin. unfold step. rewrite Hp.
  unfold onload, initEvents, render, setCanvasSize, js_div, js_lift2.
  cbn [DOM_inner emit set_enter_top set_resize_bound set_canvas set_imgRatio set_img_pending].
  rewrite Hin. reflexivity.
Qed.




End Load.

(** ** The debounced resize *)

Section Resize.
Context {N : Type} `{JsNumber N}.

Lemma quiet_since_snoc evs e :
  quiet_since (evs ++ [e]) =
    match e with
    | WindowResize _ _ => Some 0%nat
    | Elapse ms => (λ n, n + ms)%nat <$> quiet_since evs
    | _ => quiet_since evs
    end.
Proof. unfold quiet_since. by rewrite fold_left_app. Qed.

(** The listener of lines 80-87, from a state in which it is bound. *)
Lemma step_resize (s : state N) w h :
  resize_bound s = true →
  step s (WindowResize w h) =
    set_resizeTimeout (Some (next_timer s))
      (emit (SetTimeout (next_timer s) CbResize 100)
         (set_timers (S (next_timer s))
            (<[next_timer s := Timer (clock s) 100 CbResize]>
               (match resizeTimeout s with
                | Some id => delete id (timers s)
                | None => timers s
                end))
            (emit (ClearTimeout (resizeTimeout s)) (set_offset w h s)))).
Proof.
  intros Hb. unfold step. cbn [resize_bound set_offset]. rewrite Hb.
  unfold on_resize, clearTimeout, setTimeout.
  cbn [resizeTimeout set_offset]. by destruct (resizeTimeout s).
Qed.

(** The body of lines 82-86, run for a pending and due debounce timer. *)
Lemma step_fire_resize (s : state N) id t :
  timers s !! id = Some t → cb t = CbResize → is_due t s = true →
  step s (TimerFire id) =
    let s1 := set_pxIndex (length (pxFactorValues (N:=N)) - 1)
                (set_canvas (offsetWidth s) (offsetHeight s)
                   (set_timers (next_timer s) (delete id (timers s)) s)) in
    emit (Render (render_frame s1)) s1.
Proof. intros Hl Hc Hdue. unfold step. by rewrite Hl, Hdue, Hc. Qed.

(** A pending debounce timer was armed by the latest [resize] event. *)
Lemma debounce_armed_by_last_resize ow oh evs id t :
  let s := run (init (N:=N) ow oh) evs in
  timers s !! id = Some t → cb t = CbResize →
  quiet_since evs = Some (clock s - armed t)%nat.
Proof.
  revert id t. induction evs as [|e evs IH] using rev_ind; intros id t s Hl Hc.
  { subst s. simpl in Hl. by rewrite lookup_empty in Hl. }
  subst s. rewrite run_snoc in Hl |- *. rewrite quiet_since_snoc.
  pose proof (Inv_run ow oh evs) as HI. cbv zeta in IH.
  set (s := run (init ow oh) evs) in *.
  destruct e as [iw ih|w h|ms|i| |].
  - destruct (img_pending s) eqn:Hp.
    + exfalso. destruct (inv_before_load s HI Hp) as (Ht & _).
      rewrite (step_load s iw ih Hp (inv_inner s HI)) in Hl. simpl in Hl.
      by rewrite Ht, lookup_empty in Hl.
    + unfold step in Hl |- *. rewrite Hp in Hl |- *. by eapply IH.
  - destruct (resize_bound s) eqn:Hb.
    + rewrite (step_resize s w h Hb) in Hl |- *. simpl in Hl |- *.
      apply lookup_insert_Some in Hl as [[<- <-]|[Hne Hl]].
      * simpl. f_equal. lia.
      * exfalso. destruct (resizeTimeout s) as [rt|] eqn:Hrt.
        -- apply lookup_delete_Some in Hl as [Hne' Hl].
           pose proof (inv_debounce s HI id t Hl Hc). congruence.
        -- pose proof (inv_debounce s HI id t Hl Hc). congruence.
    + exfalso. destruct (img_pending s) eqn:Hp.
      * destruct (inv_before_load s HI Hp) as (Ht & _).
        unfold step in Hl. cbn [resize_bound set_offset] in Hl.
        rewrite Hb in Hl. simpl in Hl. by rewrite Ht, lookup_empty in Hl.
      * destruct (inv_after_load s HI Hp). congruence.
  - simpl in Hl |- *. rewrite (IH id t Hl Hc). simpl. f_equal.
    destruct (inv_timer s HI id t Hl) as (_ & _ & ?). lia.
  - unfold step in Hl |- *.
    destruct (timers s !! i) as [ti|] eqn:Hi; [|by eapply IH].
    destruct (is_due ti s); [|by eapply IH].
    destruct (cb ti); simpl in Hl |- *.
    + apply lookup_delete_Some in Hl as [_ Hl]. by eapply IH.
    + unfold animatePixels in Hl |- *. simpl in Hl |- *.
      destruct (S (pxIndex s) <? 5)%nat; simpl in Hl |- *.
      * apply lookup_insert_Some in Hl as [[<- <-]|[Hne Hl]]; [done|].
        apply lookup_delete_Some in Hl as [_ Hl]. by eapply IH.
      * apply lookup_delete_Some in Hl as [_ Hl]. by eapply IH.
  - unfold step in Hl |- *. destruct (enter_top s); try by eapply IH.
    unfold onEnter_top, animatePixels in Hl |- *. simpl in Hl |- *.
    apply lookup_insert_Some in Hl as [[<- <-]|[Hne Hl]]; [done|].
    by eapply IH.
  - unfold step in Hl |- *. destruct (enter_bottom s); try by eapply IH.
Qed.

(** At most one debounce timer is pending: the one [resizeTimeout]
    names. *)
Lemma one_debounce_timer (s : state N) id t :
  Inv s → timers s !! id = Some t → cb t = CbResize →
  pending CbResize s = {[id := t]}.
Proof.
  intros HI Hl Hc. apply pending_singleton; try done.
  intros id' t' Hl' Hc'.
  pose proof (inv_debounce s HI id t Hl Hc).
  pose proof (inv_debounce s HI id' t' Hl' Hc'). congruence.
Qed.

(** C7. A [resize] event clears the pending debounce timer, if any, and
    arms a new one of 100 ms, so at most one is pending, armed by the
    latest event; it cannot fire before 100 ms without a [resize] have
    passed.  When it fires, whatever the state, the canvas takes the
    size of its wrapper, the index becomes the last one and exactly one
    frame is drawn, from that index. *)
Theorem debounced_resize ow oh evs :
  let s := run (init (N:=N) ow oh) evs in
  (∀ w h, resize_bound s = true →
     let s1 := step s (WindowResize w h) in
     effects s1 =
       effects s ++ [ClearTimeout (resizeTimeout s);
                     SetTimeout (next_timer s) CbResize 100] ∧
     pending CbResize s1 = {[next_timer s := Timer (clock s) 100 CbResize]} ∧
     resizeTimeout s1 = Some (next_timer s) ∧
     offsetWidth s1 = w ∧ offsetHeight s1 = h ∧
     pxIndex s1 = pxIndex s ∧
     canvas_width s1 = canvas_width s ∧ canvas_height s1 = canvas_height s) ∧
  (∀ id t, timers s !! id = Some t → cb t = CbResize →
     resizeTimeout s = Some id ∧
     pending CbResize s = {[id := t]} ∧
     delay t = 100%nat ∧
     quiet_since evs = Some (clock s - armed t)%nat ∧
     (is_due t s = true ↔ (100 ≤ clock s - armed t)%nat) ∧
     (is_due t s = false → step s (TimerFire id) = s) ∧
     (is_due t s = true →
        let s' := step s (TimerFire id) in
        canvas_width s' = offsetWidth s ∧
        canvas_height s' = offsetHeight s ∧
        pxIndex s' = (length (pxFactorValues (N:=N)) - 1)%nat ∧
        pending CbResize s' = ∅ ∧
        ∃ f, effects s' = effects s ++ [Render f] ∧
             f_index f = (length (pxFactorValues (N:=N)) - 1)%nat ∧
             f_scale f = Some (num_decimal 10 10) ∧
             f_w f = offsetWidth s ∧ f_h f = offsetHeight s)).
Proof.
  intros s. pose proof (Inv_run ow oh evs) as HI. fold s in HI. split.
  - intros w h Hb s1.
    pose proof (Inv_step s (WindowResize w h) HI) as HI1. fold s1 in HI1.
    assert (Hs1 := step_resize s w h Hb). fold s1 in Hs1.
    split_and!; try by rewrite Hs1.
    + rewrite Hs1. simpl. by rewrite <- app_assoc.
    + apply (one_debounce_timer s1 _ _ HI1); [|done].
      rewrite Hs1. simpl. apply lookup_insert_eq.
  - intros id t Hl Hc.
    destruct (inv_timer s HI id t Hl) as (Hid & Hd & Ha).
    split_and!.
    + by apply (inv_debounce s HI id t).
    + by apply one_debounce_timer.
    + done.
    + exact (debounce_armed_by_last_resize ow oh evs id t Hl Hc).
    + unfold is_due. rewrite Hd, Nat.leb_le. lia.
    + intros Hdue. unfold step. by rewrite Hl, Hdue.
    + intros Hdue s'.
      assert (Hs' := step_fire_resize s id t Hl Hc Hdue). fold s' in Hs'.
      cbv zeta in Hs'.
      split_and!; try by rewrite Hs'.
      * apply pending_empty. intros i x Hi Hcx. rewrite Hs' in Hi.
        simpl in Hi. apply lookup_delete_Some in Hi as [Hne Hi].
        pose proof (inv_debounce s HI id t Hl Hc).
        pose proof (inv_debounce s HI i x Hi Hcx). congruence.
      * eexists. split; [by rewrite Hs'|].
        rewrite render_frame_index, render_frame_scale.
        by destruct (render_frame_size
          (set_pxIndex (length (pxFactorValues (N:=N)) - 1)
             (set_canvas (offsetWidth s) (offsetHeight s)
                (set_timers (next_timer s) (delete id (timers s)) s))))
          as [-> ->].
Qed.
End Resize.

(** ** A sequencer timer that outlives a resize *)

Section Stale.
Context {N : Type} `{JsNumber N}.





End Stale.


(** ** Binary64 arithmetic on integral sizes *)

Section Binary64Facts.
Import Binary64.

Lemma digits2_pos_iter_xO p k :
  Z.pos (digits2_pos (Pos.iter xO p k)) = Z.pos (digits2_pos p) + Z.pos k.
Proof.
  induction k as [|k IH] using Pos.peano_ind.
  - simpl. lia.
  - rewrite Pos.iter_succ. simpl. lia.
Qed.

Lemma iter_xO_value p k : Z.pos (Pos.iter xO p k) = Z.pos p * 2 ^ Z.pos k.
Proof.
  induction k as [|k IH] using Pos.peano_ind.
  - simpl. lia.
  - rewrite Pos.iter_succ, Pos2Z.inj_succ, Z.pow_succ_r by lia.
    rewrite Pos2Z.inj_xO, IH. lia.
Qed.

Lemma digits2_pos_bound p : Z.pos p < 2 ^ Z.pos (digits2_pos p).
Proof.
  induction p as [p IH|p IH|]; simpl digits2_pos.
  - rewrite Pos2Z.inj_succ, Z.pow_succ_r by lia. lia.
  - rewrite Pos2Z.inj_succ, Z.pow_succ_r by lia. lia.
  - simpl. lia.
Qed.

Lemma digits2_pos_small p : Z.pos p < 2 ^ 53 → Z.pos (digits2_pos p) <= 53.
Proof.
  intros Hlt.
  assert (Hlow : 2 ^ (Z.pos (digits2_pos p) - 1) <= Z.pos p).
  { clear Hlt. induction p as [p IH|p IH|]; simpl digits2_pos.
    - rewrite Pos2Z.inj_succ. replace (Z.succ (Z.pos (digits2_pos p)) - 1)
        with (Z.succ (Z.pos (digits2_pos p) - 1)) by lia.
      rewrite Z.pow_succ_r by lia. lia.
    - rewrite Pos2Z.inj_succ. replace (Z.succ (Z.pos (digits2_pos p)) - 1)
        with (Z.succ (Z.pos (digits2_pos p) - 1)) by lia.
      rewrite Z.pow_succ_r by lia. lia.
    - simpl. lia. }
  destruct (Z_le_gt_dec (Z.pos (digits2_pos p)) 53) as [|Hgt]; [done|].
  assert (2 ^ 53 <= 2 ^ (Z.pos (digits2_pos p) - 1))
    by (apply Z.pow_le_mono_r; lia).
  lia.
Qed.

(** A mantissa of 53 digits with an exponent in range is already
    rounded. *)
Lemma round_aux_normal s m e :
  Z.pos (digits2_pos m) = 53 → -1074 <= e <= 971 →
  binary_round_aux prec emax s (Z.pos m) e loc_Exact = S754_finite s m e.
Proof.
  intros Hd He. unfold binary_round_aux, shr_fexp, fexp, emin, Zdigits2.
  rewrite Hd. change prec with 53. change emax with 1024.
  replace (Z.max (53 + e - 53) (3 - 1024 - 53) - e) with 0 by lia.
  cbn [shr shr_record_of_loc shr_m loc_of_shr_record round_nearest_even Zdigits2].
  rewrite Hd.
  replace (Z.max (53 + e - 53) (3 - 1024 - 53) - e) with 0 by lia.
  cbn [shr shr_record_of_loc shr_m].
  replace (e <=? 1024 - 53) with true by (symmetry; apply Z.leb_le; lia).
  reflexivity.
Qed.

(** An integer below 2^53 is represented exactly, with a mantissa of 53
    digits. *)
Lemma of_Z_pos p :
  Z.pos p < 2 ^ 53 →
  ∃ m e, of_Z (Z.pos p) = S754_finite false m e ∧
         Z.pos (digits2_pos m) = 53 ∧ -52 <= e <= 0 ∧
         Z.pos m = Z.pos p * 2 ^ (- e).
Proof.
  intros Hlt. pose proof (digits2_pos_small p Hlt) as Hd.
  unfold of_Z, binary_normalize, binary_round, shl_align, fexp, emin.
  change prec with 53. change emax with 1024.
  set (d := Z.pos (digits2_pos p)) in *.
  assert (Hd1 : 1 <= d) by (unfold d; lia).
  replace (Z.max (d + 0 - 53) (3 - 1024 - 53) - 0) with (d - 53) by lia.
  replace (Z.max (d + 0 - 53) (3 - 1024 - 53)) with (d - 53) by lia.
  destruct (d - 53) as [|k|k] eqn:Hk; [|lia|].
  - exists p, 0. split_and!; try lia.
    apply (round_aux_normal false p 0); [fold d|]; lia.
  - exists (Pos.iter xO p k), (Z.neg k).
    pose proof (digits2_pos_iter_xO p k) as Hdig. fold d in Hdig.
    split_and!; try lia.
    + apply (round_aux_normal false); lia.
    + rewrite iter_xO_value. reflexivity.
Qed.

(** The literal [1.0]. *)
Lemma one_literal :
  num_decimal (N:=spec_float) 10 10 = S754_finite false 4503599627370496 (-52).
Proof. by vm_compute. Qed.

Lemma shr_52 m :
  SpecFloat.iter_pos shr_1 52
    {| shr_m := Z.pos (Pos.iter xO m 52); shr_r := false; shr_s := false |} =
  {| shr_m := Z.pos m; shr_r := false; shr_s := false |}.
Proof. reflexivity. Qed.

(** Multiplying a normal number by 1.0 returns it unchanged. *)
Lemma mul_one m e :
  Z.pos (digits2_pos m) = 53 → -1022 <= e <= 971 →
  num_mul (S754_finite false m e) (num_decimal 10 10) = S754_finite false m e.
Proof.
  intros Hd He. rewrite one_literal.
  change (num_mul (S754_finite false m e)
            (S754_finite false 4503599627370496 (-52)))
    with (binary_round_aux prec emax false
            (Z.pos (m * 4503599627370496)) (e + -52) loc_Exact).
  rewrite Pos.mul_comm.
  change (4503599627370496 * m)%positive with (Pos.iter xO m 52).
  pose proof (digits2_pos_iter_xO m 52) as Hdig. rewrite Hd in Hdig.
  unfold binary_round_aux, shr_fexp, fexp, emin, Zdigits2.
  rewrite Hdig. change prec with 53. change emax with 1024.
  replace (Z.max (53 + 52 + (e + -52) - 53) (3 - 1024 - 53) - (e + -52))
    with 52 by lia.
  unfold shr. cbv [shr_record_of_loc]. rewrite shr_52.
  cbn [shr_m loc_of_shr_record round_nearest_even Zdigits2].
  rewrite Hd.
  replace (Z.max (53 + (e + -52 + 52) - 53) (3 - 1024 - 53) - (e + -52 + 52))
    with 0 by lia.
  cbn [shr_record_of_loc shr_m].
  replace (e + -52 + 52 <=? 1024 - 53) with true
    by (symmetry; apply Z.leb_le; lia).
  f_equal. lia.
Qed.

(** Multiplying an integral size below 2^53 by the last factor and
    flooring the product gives the size back. *)
Lemma floor_mul_one w :
  0 <= w < 2 ^ 53 →
  num_floor (num_mul (num_of_Z w) (num_decimal (N:=spec_float) 10 10)) =
  num_of_Z w.
Proof.
  intros Hw. destruct w as [|p|p]; [by vm_compute| |lia].
  destruct (of_Z_pos p) as (m & e & Hof & Hd & He & Hval); [lia|].
  change (num_of_Z (Z.pos p)) with (of_Z (Z.pos p)). rewrite Hof.
  rewrite mul_one by lia.
  change (num_floor (S754_finite false m e)) with (floor (S754_finite false m e)).
  unfold floor. destruct (0 <=? e) eqn:Hle; [done|].
  apply Z.leb_gt in Hle. rewrite <- Hof. f_equal.
  cbn [cond_Zopp]. rewrite <- (Z.opp_involutive e) at 1.
  rewrite Z.shiftl_opp_r, Z.shiftr_div_pow2 by lia.
  rewrite Hval. apply Z.div_mul. apply Z.pow_nonzero; lia.
Qed.
End Binary64Facts.

(** ** Rounding in binary64 *)

(** [SpecFloat] rounds a quotient through its integer part and the
    location of the remainder.  The lemmas below follow a fraction
    [N / D] through [binary_round_aux] and bound the error of a
    product and of a quotient of two normal numbers, in integers. *)

Section Rounding.
Import Binary64.

Lemma digits2_pos_low p : 2 ^ (Z.pos (digits2_pos p) - 1) <= Z.pos p.
Proof.
  induction p as [p IH|p IH|]; simpl digits2_pos; [| |done].
  all: rewrite Pos2Z.inj_succ;
    replace (Z.succ (Z.pos (digits2_pos p)) - 1)
      with (Z.succ (Z.pos (digits2_pos p) - 1)) by lia;
    rewrite Z.pow_succ_r by lia; lia.
Qed.

Lemma digits_unique p d :
  2 ^ (d - 1) <= Z.pos p < 2 ^ d → Z.pos (digits2_pos p) = d.
Proof.
  intros [Hlo Hhi].
  pose proof (digits2_pos_low p) as Hlo'.
  pose proof (digits2_pos_bound p) as Hhi'.
  assert (0 < d).
  { destruct (Z.lt_trichotomy d 0) as [Hd|[->|Hd]]; [|simpl in Hhi; lia|done].
    rewrite Z.pow_neg_r in Hhi by done. lia. }
  destruct (Z.lt_trichotomy (Z.pos (digits2_pos p)) d) as [Hlt|[Heq|Hgt]];
    [|done|].
  - assert (2 ^ Z.pos (digits2_pos p) <= 2 ^ (d - 1))
      by (apply Z.pow_le_mono_r; lia).
    lia.
  - assert (2 ^ d <= 2 ^ (Z.pos (digits2_pos p) - 1))
      by (apply Z.pow_le_mono_r; lia).
    lia.
Qed.

Ltac bool_lia :=
  repeat match goal with
         | |- context [Z.leb ?a ?b] => destruct (Z.leb_spec a b)
         | |- context [Z.eqb ?a ?b] => destruct (Z.eqb_spec a b)
         end;
  simpl; try reflexivity; try lia.

Lemma record_of_loc_frac N D :
  0 < D → shr_record_of_loc (N / D) (loc_frac N D) = rec_frac N D.
Proof.
  intros HD. unfold loc_frac, rec_frac.
  pose proof (Z.mod_pos_bound N D HD) as HR.
  destruct (Z.eqb_spec (N mod D) 0) as [H0|H0]; simpl.
  - f_equal; bool_lia.
  - destruct (Z.compare_spec (2 * (N mod D)) D) as [He|Hl|Hg]; simpl;
      f_equal; bool_lia.
Qed.

Lemma shr_1_frac N D :
  0 <= N → 0 < D → shr_1 (rec_frac N D) = rec_frac N (2 * D).
Proof.
  intros HN HD. unfold rec_frac.
  pose proof (Z.mod_pos_bound N D HD) as HR.
  assert (Hq : 0 <= N / D) by (apply Z.div_pos; lia).
  assert (Hdiv : N / (2 * D) = N / D / 2)
    by (rewrite (Z.mul_comm 2 D), Z.div_div by lia; reflexivity).
  assert (Hmod : N mod (2 * D) = N mod D + D * ((N / D) mod 2))
    by (rewrite (Z.mul_comm 2 D); apply Z.rem_mul_r; lia).
  rewrite Hdiv, Hmod.
  pose proof (Z.div_mod (N / D) 2 ltac:(lia)) as Hq2.
  pose proof (Z.mod_pos_bound (N / D) 2 ltac:(lia)) as Hb2.
  generalize dependent (N mod D). intros R HR Hmod.
  generalize dependent (N / D). intros q Hq Hdiv Hmod.
  destruct q as [|[p|p|]|p]; try lia; cbn [shr_1].
  - intros. change (0 / 2) with 0. change (0 mod 2) with 0.
    f_equal; bool_lia.
  - intros Hq2 Hb2.
    assert (Hp1 : Z.pos p~1 mod 2 = 1) by (rewrite Pos2Z.inj_xI in *; lia).
    assert (Hp2 : Z.pos p~1 / 2 = Z.pos p) by (rewrite Pos2Z.inj_xI in *; lia).
    rewrite Hp1, Hp2. f_equal; bool_lia.
  - intros Hq2 Hb2.
    assert (Hp1 : Z.pos p~0 mod 2 = 0) by (rewrite Pos2Z.inj_xO in *; lia).
    assert (Hp2 : Z.pos p~0 / 2 = Z.pos p) by (rewrite Pos2Z.inj_xO in *; lia).
    rewrite Hp1, Hp2. f_equal; bool_lia.
  - intros. change (1 / 2) with 0. change (1 mod 2) with 1.
    f_equal; bool_lia.
Qed.

Lemma iter_pos_shr_frac p : ∀ N D,
  0 <= N → 0 < D →
  SpecFloat.iter_pos shr_1 p (rec_frac N D) = rec_frac N (D * 2 ^ Z.pos p).
Proof.
  induction p as [p IH|p IH|]; intros N D HN HD; cbn [SpecFloat.iter_pos].
  - rewrite shr_1_frac, !IH by lia. f_equal.
    rewrite (Pos2Z.inj_xI p), Z.pow_add_r, Z.pow_twice_r by lia.
    change (2 ^ 1) with 2. ring.
  - rewrite !IH by lia. f_equal.
    rewrite (Pos2Z.inj_xO p), Z.pow_twice_r. ring.
  - rewrite shr_1_frac by lia. f_equal. change (2 ^ 1) with 2. ring.
Qed.

(** Rounding [N / D] to the nearest integer, ties to even. *)
Lemma round_frac N D :
  0 <= N → 0 < D →
  let M := round_nearest_even (shr_m (rec_frac N D))
             (loc_of_shr_record (rec_frac N D)) in
  (M = N / D ∨ M = N / D + 1) ∧
  2 * Z.abs (M * D - N) <= D ∧
  (N mod D = 0 → M * D = N).
Proof.
  intros HN HD. unfold rec_frac. cbn [shr_m loc_of_shr_record].
  pose proof (Z.mod_pos_bound N D HD) as HR.
  pose proof (Z.div_mod N D ltac:(lia)) as Hdm.
  generalize dependent (N mod D). intros R HR Hdm.
  generalize dependent (N / D). intros q Hdm.
  assert (Hq1 : (q + 1) * D = D * q + D) by ring.
  assert (Hq0 : q * D = D * q) by ring.
  destruct (Z.leb_spec D (2 * R)), (Z.eqb_spec R 0), (Z.eqb_spec (2 * R) D);
    cbn [negb andb round_nearest_even]; try lia.
  all: try destruct (Z.even q); (split; [tauto|]); rewrite ?Hq1, ?Hq0; lia.
Qed.

Lemma shr_fexp_frac N D ex n :
  0 < N → 0 < D → 0 <= n →
  2 ^ (52 + n) <= N / D < 2 ^ (53 + n) → -1074 <= ex + n →
  shr_fexp prec emax (N / D) ex (loc_frac N D) =
    (rec_frac N (D * 2 ^ n), ex + n).
Proof.
  intros HN HD Hn Hq He. unfold shr_fexp.
  rewrite record_of_loc_frac by done.
  assert (Hdig : Zdigits2 (N / D) = 53 + n).
  { destruct (N / D) as [|q|q] eqn:Hqq.
    - assert (0 < 2 ^ (52 + n)) by (apply Z.pow_pos_nonneg; lia). lia.
    - simpl. apply digits_unique.
      replace (53 + n - 1) with (52 + n) by lia. done.
    - assert (0 < 2 ^ (52 + n)) by (apply Z.pow_pos_nonneg; lia). lia. }
  rewrite Hdig. unfold fexp, emin. change prec with 53. change emax with 1024.
  replace (Z.max (53 + n + ex - 53) (3 - 1024 - 53) - ex) with n by lia.
  unfold shr. destruct n as [|p|p]; [| |lia].
  - by rewrite Z.mul_1_r, Z.add_0_r.
  - by rewrite iter_pos_shr_frac by lia.
Qed.

Lemma shr_fexp_normal M e :
  2 ^ 52 <= M < 2 ^ 53 → -1074 <= e →
  shr_fexp prec emax M e loc_Exact =
    ({| shr_m := M; shr_r := false; shr_s := false |}, e).
Proof.
  intros HM He. unfold shr_fexp.
  assert (Hdig : Zdigits2 M = 53).
  { destruct M as [|q|q]; [lia| |lia]. simpl. by apply digits_unique. }
  rewrite Hdig. unfold fexp, emin. change prec with 53. change emax with 1024.
  replace (Z.max (53 + e - 53) (3 - 1024 - 53) - e) with 0 by lia.
  reflexivity.
Qed.

Lemma shr_fexp_carry e :
  -1075 <= e →
  shr_fexp prec emax (2 ^ 53) e loc_Exact =
    ({| shr_m := 2 ^ 52; shr_r := false; shr_s := false |}, e + 1).
Proof.
  intros He. unfold shr_fexp.
  change (Zdigits2 (2 ^ 53)) with 54.
  unfold fexp, emin. change prec with 53. change emax with 1024.
  replace (Z.max (54 + e - 53) (3 - 1024 - 53) - e) with 1 by lia.
  reflexivity.
Qed.

(** [binary_round_aux] on the fraction [N / D] scaled by [2^ex], when the
    integer part has [53 + n] digits and the result is a normal number:
    the mantissa [M] is the fraction shifted by [n + c] digits and rounded
    to nearest, where [c] is 1 when the rounding carried into a 54th
    digit. *)
Lemma round_aux_frac sx N D ex n :
  0 < N → 0 < D → 0 <= n →
  2 ^ (52 + n) <= N / D < 2 ^ (53 + n) →
  -1074 <= ex + n → ex + n + 1 <= 971 →
  ∃ (M : positive) (c : Z),
    binary_round_aux prec emax sx (N / D) ex (loc_frac N D) =
      S754_finite sx M (ex + n + c) ∧
    (c = 0 ∨ c = 1) ∧ 2 ^ 52 <= Z.pos M < 2 ^ 53 ∧
    2 * Z.abs (Z.pos M * 2 ^ c * (D * 2 ^ n) - N) <= D * 2 ^ n ∧
    (N mod (D * 2 ^ n) = 0 → c = 0 ∧ Z.pos M * (D * 2 ^ n) = N).
Proof.
  intros HN HD Hn Hq He1 He2. unfold binary_round_aux.
  rewrite (shr_fexp_frac N D ex n) by done.
  assert (HP : 0 < 2 ^ n) by (apply Z.pow_pos_nonneg; lia).
  assert (HD' : 0 < D * 2 ^ n) by lia.
  destruct (round_frac N (D * 2 ^ n) ltac:(lia) HD') as (HM & Hb & Hex).
  set (M0 := round_nearest_even _ _) in *.
  assert (Hq' : 2 ^ 52 <= N / (D * 2 ^ n) < 2 ^ 53).
  { rewrite <- Z.div_div by lia.
    rewrite !Z.pow_add_r in Hq by lia. split.
    - apply Z.div_le_lower_bound; lia.
    - apply Z.div_lt_upper_bound; lia. }
  destruct (Z.eq_dec M0 (2 ^ 53)) as [Hc|Hc].
  - rewrite Hc, shr_fexp_carry by lia. cbn [shr_m].
    change (2 ^ 52) with (Z.pos 4503599627370496).
    replace (ex + n + 1 <=? emax - prec) with true
      by (symmetry; apply Z.leb_le; change emax with 1024;
          change prec with 53; lia).
    exists 4503599627370496%positive, 1.
    split; [done|]. split; [by right|]. split; [lia|]. split.
    + replace (Z.pos 4503599627370496 * 2 ^ 1) with M0
        by (rewrite Hc; reflexivity).
      exact Hb.
    + intros H0. specialize (Hex H0).
      assert (N / (D * 2 ^ n) = M0).
      { rewrite <- Hex. by rewrite Z.div_mul by lia. }
      lia.
  - assert (HM0 : 2 ^ 52 <= M0 < 2 ^ 53) by lia.
    rewrite shr_fexp_normal by (done || lia). cbn [shr_m].
    destruct M0 as [|M|M] eqn:HM0e; [lia| |lia].
    replace (ex + n <=? emax - prec) with true
      by (symmetry; apply Z.leb_le; change emax with 1024;
          change prec with 53; lia).
    exists M, 0. rewrite Z.add_0_r, Z.mul_1_r.
    split; [done|]. split; [by left|]. split; [lia|]. split; [exact Hb|].
    intros H0. split; [done|]. by apply Hex.
Qed.
End Rounding.

Section Operations.
Import Binary64.

Lemma normal_digits m :
  Z.pos (digits2_pos m) = 53 ↔ 2 ^ 52 <= Z.pos m < 2 ^ 53.
Proof.
  split.
  - intros Hd. pose proof (digits2_pos_low m). pose proof (digits2_pos_bound m).
    rewrite Hd in *. done.
  - intros Hm. by apply (digits_unique m 53).
Qed.

(** The product of two normal numbers: the mantissa of the result is the
    product of the mantissas shifted by [u] digits and rounded to
    nearest. *)
Lemma mul_normal s1 m1 e1 s2 m2 e2 :
  2 ^ 52 <= Z.pos m1 < 2 ^ 53 → 2 ^ 52 <= Z.pos m2 < 2 ^ 53 →
  -1074 <= e1 + e2 + 52 → e1 + e2 + 54 <= 971 →
  ∃ (M : positive) (u : Z),
    SFmul prec emax (S754_finite s1 m1 e1) (S754_finite s2 m2 e2) =
      S754_finite (xorb s1 s2) M (e1 + e2 + u) ∧
    52 <= u <= 54 ∧ 2 ^ 52 <= Z.pos M < 2 ^ 53 ∧
    2 * Z.abs (Z.pos M * 2 ^ u - Z.pos m1 * Z.pos m2) <= 2 ^ u.
Proof.
  intros H1 H2 Hlo Hhi. cbn [SFmul].
  set (N := Z.pos m1 * Z.pos m2).
  assert (HN : 2 ^ 104 <= N < 2 ^ 106).
  { unfold N. change (2 ^ 104) with (2 ^ 52 * 2 ^ 52).
    change (2 ^ 106) with (2 ^ 53 * 2 ^ 53). nia. }
  replace (Z.pos (m1 * m2)) with (N / 1) by (by rewrite Z.div_1_r).
  replace loc_Exact with (loc_frac N 1)
    by (unfold loc_frac; by rewrite Z.mod_1_r).
  destruct (Z.lt_ge_cases N (2 ^ 105)) as [Hlt|Hge].
  - destruct (round_aux_frac (xorb s1 s2) N 1 (e1 + e2) 52)
      as (M & c & -> & Hc & HM & Hb & _); try lia.
    { rewrite Z.div_1_r. change (2 ^ (52 + 52)) with (2 ^ 104).
      change (2 ^ (53 + 52)) with (2 ^ 105). lia. }
    exists M, (52 + c). rewrite Z.add_assoc. split; [done|]. split; [lia|].
    split; [done|]. destruct Hc as [-> | ->]; simpl in *; lia.
  - destruct (round_aux_frac (xorb s1 s2) N 1 (e1 + e2) 53)
      as (M & c & -> & Hc & HM & Hb & _); try lia.
    { rewrite Z.div_1_r. change (2 ^ (52 + 53)) with (2 ^ 105).
      change (2 ^ (53 + 53)) with (2 ^ 106). lia. }
    exists M, (53 + c). rewrite Z.add_assoc. split; [done|]. split; [lia|].
    split; [done|]. destruct Hc as [-> | ->]; simpl in *; lia.
Qed.

Lemma div_loc m r :
  0 < m → 0 <= r < m →
  new_location m r =
    if r =? 0 then loc_Exact else loc_Inexact (2 * r ?= m).
Proof.
  intros Hm Hr. unfold new_location, new_location_even, new_location_odd.
  destruct (Z.even m) eqn:Hev; [done|].
  destruct (Z.eqb_spec r 0); [done|]. f_equal.
  assert (Hodd : Z.odd m = true) by (by rewrite <- Z.negb_even, Hev).
  apply Z.odd_spec in Hodd as [k ->].
  destruct (Z.compare_spec (2 * r + 1) (2 * k + 1)),
    (Z.compare_spec (2 * r) (2 * k + 1)); try done; lia.
Qed.

(** The quotient of two normal numbers, before rounding: the mantissa of
    the dividend with 53 more digits, divided by that of the divisor. *)
Lemma div_core s1 m1 e1 s2 m2 e2 :
  2 ^ 52 <= Z.pos m1 < 2 ^ 53 → 2 ^ 52 <= Z.pos m2 < 2 ^ 53 →
  -1074 <= e1 - e2 - 53 →
  SFdiv prec emax (S754_finite s1 m1 e1) (S754_finite s2 m2 e2) =
    binary_round_aux prec emax (xorb s1 s2)
      (Z.pos m1 * 2 ^ 53 / Z.pos m2) (e1 - e2 - 53)
      (loc_frac (Z.pos m1 * 2 ^ 53) (Z.pos m2)).
Proof.
  intros H1 H2 Hlo. cbn [SFdiv]. unfold SFdiv_core_binary.
  cbn [Zdigits2].
  rewrite (proj2 (normal_digits m1) H1), (proj2 (normal_digits m2) H2).
  unfold fexp, emin. change prec with 53. change emax with 1024.
  replace (Z.min (Z.max (53 + e1 - (53 + e2) - 53) (3 - 1024 - 53)) (e1 - e2))
    with (e1 - e2 - 53) by lia.
  replace (e1 - e2 - (e1 - e2 - 53)) with 53 by lia.
  rewrite Z.shiftl_mul_pow2 by lia.
  set (N := Z.pos m1 * 2 ^ 53).
  assert (Hdm : Z.div_eucl N (Z.pos m2) = (N / Z.pos m2, N mod Z.pos m2)).
  { unfold Z.div, Z.modulo. by destruct (Z.div_eucl N (Z.pos m2)). }
  rewrite Hdm.
  pose proof (Z.mod_pos_bound N (Z.pos m2) ltac:(lia)) as HR.
  rewrite div_loc by lia. reflexivity.
Qed.

(** The quotient of two normal numbers. *)
Lemma div_normal s1 m1 e1 s2 m2 e2 :
  2 ^ 52 <= Z.pos m1 < 2 ^ 53 → 2 ^ 52 <= Z.pos m2 < 2 ^ 53 →
  -1074 <= e1 - e2 - 53 → e1 - e2 <= 971 →
  ∃ (M : positive) (t : Z),
    SFdiv prec emax (S754_finite s1 m1 e1) (S754_finite s2 m2 e2) =
      S754_finite (xorb s1 s2) M (e1 - e2 - t) ∧
    51 <= t <= 53 ∧ 2 ^ 52 <= Z.pos M < 2 ^ 53 ∧
    2 * Z.abs (Z.pos M * Z.pos m2 - Z.pos m1 * 2 ^ t) <= Z.pos m2.
Proof.
  intros H1 H2 Hlo Hhi. rewrite div_core by done.
  set (N := Z.pos m1 * 2 ^ 53).
  assert (HNpos : 0 < N) by (unfold N; lia).
  destruct (Z.lt_ge_cases (Z.pos m1) (Z.pos m2)) as [Hlt|Hge].
  - destruct (round_aux_frac (xorb s1 s2) N (Z.pos m2) (e1 - e2 - 53) 0)
      as (M & c & Heq & Hc & HM & Hb & _); try lia.
    { change (52 + 0) with 52. change (53 + 0) with 53. split.
      - apply Z.div_le_lower_bound; [lia|]. unfold N.
        change (2 ^ 53) with (2 * 2 ^ 52). nia.
      - apply Z.div_lt_upper_bound; [lia|]. unfold N. nia. }
    rewrite Heq.
    exists M, (53 - c). split; [f_equal; lia|]. split; [lia|]. split; [done|].
    unfold N in Hb.
    destruct Hc as [-> | ->]; simpl in Hb |- *; lia.
  - destruct (round_aux_frac (xorb s1 s2) N (Z.pos m2) (e1 - e2 - 53) 1)
      as (M & c & Heq & Hc & HM & Hb & _); try lia.
    { change (52 + 1) with 53. change (53 + 1) with 54. split.
      - apply Z.div_le_lower_bound; [lia|]. unfold N. nia.
      - apply Z.div_lt_upper_bound; [lia|]. unfold N.
        change (2 ^ 54) with (2 * 2 ^ 53). nia. }
    rewrite Heq.
    exists M, (52 - c). split; [f_equal; lia|]. split; [lia|]. split; [done|].
    unfold N in Hb.
    destruct Hc as [-> | ->]; simpl in Hb |- *; lia.
Qed.

(** Dividing a normal number by two lowers its exponent by one. *)
Lemma half_normal s m e :
  2 ^ 52 <= Z.pos m < 2 ^ 53 → -1000 <= e <= 900 →
  SFdiv prec emax (S754_finite s m e) (of_Z 2) = S754_finite s m (e - 1).
Proof.
  intros Hm He.
  change (of_Z 2) with (S754_finite false 4503599627370496 (-51)).
  rewrite div_core by (done || lia).
  change (Z.pos 4503599627370496) with (2 ^ 52).
  destruct (round_aux_frac (xorb s false) (Z.pos m * 2 ^ 53) (2 ^ 52)
              (e - -51 - 53) 1)
    as (M & c & Heq & _ & _ & _ & Hex); try lia.
  { replace (Z.pos m * 2 ^ 53) with (Z.pos m * 2 * 2 ^ 52)
      by (change (2 ^ 53) with (2 * 2 ^ 52); ring).
    rewrite Z.div_mul by lia.
    change (2 ^ (52 + 1)) with (2 ^ 53). change (2 ^ (53 + 1)) with (2 * 2 ^ 53).
    lia. }
  destruct Hex as [-> Hval].
  { change (2 ^ 52 * 2 ^ 1) with (2 ^ 53). apply Z.mod_mul. lia. }
  rewrite Heq. change (2 ^ 52 * 2 ^ 1) with (2 ^ 53) in Hval.
  apply Z.mul_cancel_r in Hval; [|lia]. apply Pos2Z.inj in Hval as ->.
  rewrite xorb_false_r. f_equal. lia.
Qed.
End Operations.

Section Arith.

(** Rounding [A / T] to the nearest integer, when [A / T] is within
    [c / (2 T)] of the fraction [X / Y] and [c Y < T]: the result is
    within one half of [X / Y]. *)
Lemma round_half_bound A T X Y c :
  0 < Y → 0 < T → 0 <= c → c * Y < T →
  2 * Z.abs (A * Y - X * T) <= c * Y →
  2 * Z.abs ((2 * A + T) / (2 * T) * Y - X) <= Y.
Proof.
  intros HY HT Hc HcY Hb.
  pose proof (Z.div_mod (2 * A + T) (2 * T) ltac:(lia)) as Hdm.
  pose proof (Z.mod_pos_bound (2 * A + T) (2 * T) ltac:(lia)) as Hr.
  set (n := (2 * A + T) / (2 * T)) in *.
  generalize dependent ((2 * A + T) mod (2 * T)). intros R Hdm Hr.
  assert (HA : 2 * A = 2 * T * n + R - T) by lia.
  assert (H1 : 2 * (A * Y) = 2 * T * (n * Y) + R * Y - T * Y) by nia.
  assert (H2 : 0 <= R * Y < 2 * T * Y) by nia.
  assert (H3 : T * (2 * (n * Y - X)) = 2 * (A * Y - X * T) - R * Y + T * Y)
    by nia.
  assert (H4 : - T * (Y + 1) < T * (2 * (n * Y - X)) < T * (Y + 1)) by nia.
  assert (H5 : - (Y + 1) < 2 * (n * Y - X) < Y + 1) by nia.
  lia.
Qed.

Lemma narrow_arith h iw ih Kh Kiw Kih P U T Mr Mp :
  0 < h → 0 < iw → 0 < ih → 0 < Kh → 0 < Kiw → 0 < Kih → 0 < P → 0 < T →
  2 ^ 52 <= U → Kh * Kiw * P = T * U * Kih → h * Kh < 2 ^ 53 →
  2 * Z.abs (Mr * (ih * Kih) - iw * Kiw * P) <= ih * Kih →
  2 * Z.abs (Mp * U - h * Kh * Mr) <= U →
  2 * Z.abs (Mp * ih - h * iw * T) <= 3 * ih.
Proof.
  intros Hh Hiw Hih HKh HKiw HKih HP HT HU Hid Hmh Hdiv Hmul.
  set (W := U * Kih). assert (HW : 0 < W) by (unfold W; nia).
  set (a := Mp * U - h * Kh * Mr) in *.
  set (b := Mr * (ih * Kih) - iw * Kiw * P) in *.
  assert (Hsplit : (Mp * ih - h * iw * T) * W = a * (ih * Kih) + h * Kh * b).
  { unfold a, b, W.
    replace (h * Kh * (Mr * (ih * Kih) - iw * Kiw * P))
      with (h * Kh * Mr * (ih * Kih) - h * iw * (Kh * Kiw * P)) by ring.
    rewrite Hid. ring. }
  assert (Ha : 2 * Z.abs (a * (ih * Kih)) <= U * (ih * Kih)).
  { rewrite Z.abs_mul, (Z.abs_eq (ih * Kih)) by nia. nia. }
  assert (Hb : 2 * Z.abs (h * Kh * b) <= 2 * U * (ih * Kih)).
  { rewrite Z.abs_mul, (Z.abs_eq (h * Kh)) by nia.
    assert (h * Kh * (2 * Z.abs b) <= h * Kh * (ih * Kih)) by nia.
    assert (h * Kh * (ih * Kih) <= 2 ^ 53 * (ih * Kih)) by nia.
    change (2 ^ 53) with (2 * 2 ^ 52) in *. nia. }
  assert (Hsum : 2 * Z.abs ((Mp * ih - h * iw * T) * W) <= 3 * ih * W).
  { rewrite Hsplit. unfold W.
    pose proof (Z.abs_triangle (a * (ih * Kih)) (h * Kh * b)). nia. }
  rewrite Z.abs_mul, (Z.abs_eq W) in Hsum by lia.
  nia.
Qed.

Lemma wide_arith w iw ih Kw Kiw Kih P P2 T Mr Mq :
  0 < w → 0 < iw → 0 < ih → 0 < Kw → 0 < Kiw → 0 < Kih → 0 < T →
  2 ^ 51 <= P → 0 < P2 → T * (Kiw * P) = Kw * Kih * P2 →
  2 ^ 52 <= Mr < 2 ^ 53 → 0 <= Mq < 2 ^ 53 →
  ih * Kih < 2 ^ 53 → 2 ^ 52 <= iw * Kiw →
  2 * Z.abs (Mr * (ih * Kih) - iw * Kiw * P) <= ih * Kih →
  2 * Z.abs (Mq * Mr - w * Kw * P2) <= Mr →
  2 * Z.abs (Mq * iw - w * ih * T) <= 16 * iw.
Proof.
  intros Hw Hiw Hih HKw HKiw HKih HT HP HP2 Hid HMr HMq Hmih Hmiw Hd1 Hd2.
  set (W := Kiw * P). assert (HW : 0 < W) by (unfold W; nia).
  assert (HihK : 0 < ih * Kih) by nia.
  set (a := Mr * (ih * Kih) - iw * Kiw * P) in *.
  set (b := Mq * Mr - w * Kw * P2) in *.
  assert (Hsplit : (Mq * iw - w * ih * T) * W = b * (ih * Kih) - Mq * a).
  { unfold a, b, W.
    replace ((Mq * Mr - w * Kw * P2) * (ih * Kih))
      with (Mq * Mr * (ih * Kih) - w * ih * (Kw * Kih * P2)) by ring.
    rewrite <- Hid. ring. }
  assert (Ha : 2 * Z.abs (Mq * a) <= 2 ^ 53 * (ih * Kih)).
  { rewrite Z.abs_mul, (Z.abs_eq Mq) by lia.
    assert (Hx : Mq * (2 * Z.abs a) <= Mq * (ih * Kih))
      by (apply Z.mul_le_mono_nonneg_l; lia).
    assert (Hy : Mq * (ih * Kih) <= 2 ^ 53 * (ih * Kih))
      by (apply Z.mul_le_mono_nonneg_r; lia).
    lia. }
  assert (Hb : 2 * Z.abs (b * (ih * Kih)) <= 2 ^ 53 * (ih * Kih)).
  { rewrite Z.abs_mul, (Z.abs_eq (ih * Kih)) by lia.
    assert (Hx : 2 * Z.abs b * (ih * Kih) <= Mr * (ih * Kih))
      by (apply Z.mul_le_mono_nonneg_r; lia).
    assert (Hy : Mr * (ih * Kih) <= 2 ^ 53 * (ih * Kih))
      by (apply Z.mul_le_mono_nonneg_r; lia).
    lia. }
  assert (Hsum : 2 * Z.abs ((Mq * iw - w * ih * T) * W) <= 2 ^ 54 * (ih * Kih)).
  { rewrite Hsplit.
    pose proof (Z.abs_triangle (b * (ih * Kih)) (- (Mq * a))) as Htri.
    rewrite Z.abs_opp in Htri.
    replace (b * (ih * Kih) - Mq * a) with (b * (ih * Kih) + - (Mq * a)) by ring.
    change (2 ^ 54) with (2 * 2 ^ 53). lia. }
  assert (Hbig : 2 ^ 54 * (ih * Kih) <= 16 * iw * W).
  { unfold W.
    assert (Hx : 2 ^ 52 * 2 ^ 51 <= iw * Kiw * P)
      by (apply Z.mul_le_mono_nonneg; lia).
    assert (Hy : 2 ^ 54 * (ih * Kih) <= 2 ^ 54 * 2 ^ 53)
      by (apply Z.mul_le_mono_nonneg_l; lia).
    change (2 ^ 54 * 2 ^ 53) with (16 * (2 ^ 52 * 2 ^ 51)) in Hy. lia. }
  rewrite Z.abs_mul, (Z.abs_eq W) in Hsum by lia.
  assert (Hfin : 2 * Z.abs (Mq * iw - w * ih * T) * W <= 16 * iw * W) by lia.
  apply Z.mul_le_mono_pos_r in Hfin; lia.
Qed.
End Arith.

Section Branches.
Import Binary64.

Lemma small_exponent a k :
  0 < a < 2 ^ 16 → 0 <= k → 2 ^ 52 <= a * 2 ^ k → 37 <= k.
Proof.
  intros Ha Hk Hm. destruct (Z.le_gt_cases 37 k) as [|Hlt]; [done|].
  assert (2 ^ k <= 2 ^ 36) by (apply Z.pow_le_mono_r; lia).
  change (2 ^ 52) with (2 ^ 16 * 2 ^ 36) in Hm. nia.
Qed.

(** A size below 2^16 as a binary64 number. *)
Lemma of_Z_small a :
  0 < a < 2 ^ 16 →
  ∃ m k, of_Z a = S754_finite false m (- k) ∧ 37 <= k <= 52 ∧
         2 ^ 52 <= Z.pos m < 2 ^ 53 ∧ Z.pos m = a * 2 ^ k.
Proof.
  intros Ha. destruct a as [|p|p]; [lia| |lia].
  destruct (of_Z_pos p) as (m & e & Hof & Hd & He & Hval); [lia|].
  apply normal_digits in Hd.
  exists m, (- e). rewrite Z.opp_involutive. split; [done|].
  assert (37 <= - e) by (apply (small_exponent (Z.pos p)); lia).
  split; [lia|]. split; [done|]. done.
Qed.

Lemma round_pos M e :
  e < 0 →
  round (S754_finite false M e) =
    of_Z ((2 * Z.pos M + 2 ^ (- e)) / (2 * 2 ^ (- e))).
Proof.
  intros He. unfold round.
  replace (0 <=? e) with false by (symmetry; apply Z.leb_gt; lia).
  cbn [cond_Zopp].
  replace (e - 1) with (- (1 - e)) by lia.
  rewrite Z.shiftl_opp_r, Z.shiftr_div_pow2 by lia.
  replace (2 ^ (1 - e)) with (2 * 2 ^ (- e))
    by (replace (1 - e) with (Z.succ (- e)) by lia;
        rewrite Z.pow_succ_r by lia; reflexivity).
  destruct (Z.eqb_spec ((2 * Z.pos M + 2 ^ (- e)) / (2 * 2 ^ (- e))) 0)
    as [->|]; done.
Qed.

(** The width [render] computes when it adjusts the width:
    [Math.round(h * (iw / ih))] is an integer within one half of the
    exact [h * iw / ih]. *)
Lemma narrow_width h iw ih :
  0 < h < 2 ^ 16 → 0 < iw < 2 ^ 16 → 0 < ih < 2 ^ 16 →
  ∃ n, round (SFmul prec emax (of_Z h)
                (SFdiv prec emax (of_Z iw) (of_Z ih))) = of_Z n ∧
       0 <= n < 2 ^ 33 ∧ 2 * Z.abs (n * ih - h * iw) <= ih.
Proof.
  intros Hh Hiw Hih.
  destruct (of_Z_small h Hh) as (mh & kh & -> & Hkh & Hmh & Hvh).
  destruct (of_Z_small iw Hiw) as (miw & kiw & -> & Hkiw & Hmiw & Hviw).
  destruct (of_Z_small ih Hih) as (mih & kih & -> & Hkih & Hmih & Hvih).
  destruct (div_normal false miw (- kiw) false mih (- kih))
    as (Mr & t & Hdv & Ht & HMr & Hdiv); try lia.
  cbn [xorb] in Hdv. rewrite Hdv.
  destruct (mul_normal false mh (- kh) false Mr (- kiw - - kih - t))
    as (Mp & u & Hml & Hu & HMp & Hmul); try lia.
  cbn [xorb] in Hml. rewrite Hml.
  set (j := kh + kiw - kih + t - u).
  replace (- kh + (- kiw - - kih - t) + u) with (- j) by (unfold j; lia).
  assert (Hj : 19 <= j) by (unfold j; lia).
  rewrite round_pos by lia. rewrite Z.opp_involutive.
  set (T := 2 ^ j).
  assert (HT : 2 ^ 19 <= T) by (apply Z.pow_le_mono_r; lia).
  assert (Hid : 2 ^ kh * 2 ^ kiw * 2 ^ t = T * 2 ^ u * 2 ^ kih).
  { unfold T. rewrite <- !Z.pow_add_r by lia. f_equal. unfold j. lia. }
  assert (HU : 2 ^ 52 <= 2 ^ u) by (apply Z.pow_le_mono_r; lia).
  assert (0 < 2 ^ kh) by (apply Z.pow_pos_nonneg; lia).
  assert (0 < 2 ^ kiw) by (apply Z.pow_pos_nonneg; lia).
  assert (0 < 2 ^ kih) by (apply Z.pow_pos_nonneg; lia).
  assert (0 < 2 ^ t) by (apply Z.pow_pos_nonneg; lia).
  rewrite Hvih, Hviw in Hdiv. rewrite Hvh in Hmul.
  pose proof (narrow_arith h iw ih (2 ^ kh) (2 ^ kiw) (2 ^ kih) (2 ^ t) (2 ^ u)
                T (Z.pos Mr) (Z.pos Mp)
                ltac:(lia) ltac:(lia) ltac:(lia) ltac:(lia) ltac:(lia)
                ltac:(lia) ltac:(lia) ltac:(lia) HU Hid ltac:(lia) Hdiv Hmul)
    as Hclose.
  pose proof (round_half_bound (Z.pos Mp) T (h * iw) ih 3
                ltac:(lia) ltac:(lia) ltac:(lia) ltac:(lia) Hclose) as Hn.
  eexists. split; [reflexivity|]. split; [|exact Hn].
  set (n := (2 * Z.pos Mp + T) / (2 * T)) in *.
  assert (0 <= n) by (apply Z.div_pos; lia).
  split; [done|].
  assert (Hhiw : h * iw < 2 ^ 16 * 2 ^ 16)
    by (apply Z.mul_lt_mono_nonneg; lia).
  assert (Hnn : n * 1 <= n * ih) by (apply Z.mul_le_mono_nonneg_l; lia).
  change (2 ^ 33) with (2 * (2 ^ 16 * 2 ^ 16)). lia.
Qed.
End Branches.

Section WideBranch.
Import Binary64.

(** The height [render] computes when it adjusts the height:
    [Math.round(w / (iw / ih))] is an integer within one half of the
    exact [w * ih / iw]. *)
Lemma wide_height w iw ih :
  0 < w < 2 ^ 16 → 0 < iw < 2 ^ 16 → 0 < ih < 2 ^ 16 →
  ∃ n, round (SFdiv prec emax (of_Z w)
                (SFdiv prec emax (of_Z iw) (of_Z ih))) = of_Z n ∧
       0 <= n < 2 ^ 33 ∧ 2 * Z.abs (n * iw - w * ih) <= iw.
Proof.
  intros Hw Hiw Hih.
  destruct (of_Z_small w Hw) as (mw & kw & -> & Hkw & Hmw & Hvw).
  destruct (of_Z_small iw Hiw) as (miw & kiw & -> & Hkiw & Hmiw & Hviw).
  destruct (of_Z_small ih Hih) as (mih & kih & -> & Hkih & Hmih & Hvih).
  destruct (div_normal false miw (- kiw) false mih (- kih))
    as (Mr & t & Hdv & Ht & HMr & Hdiv); try lia.
  cbn [xorb] in Hdv. rewrite Hdv.
  destruct (div_normal false mw (- kw) false Mr (- kiw - - kih - t))
    as (Mq & t2 & Hdv2 & Ht2 & HMq & Hdiv2); try lia.
  cbn [xorb] in Hdv2. rewrite Hdv2.
  set (j := kw - kiw + kih - t + t2).
  replace (- kw - (- kiw - - kih - t) - t2) with (- j) by (unfold j; lia).
  assert (Hj : 20 <= j) by (unfold j; lia).
  rewrite round_pos by lia. rewrite Z.opp_involutive.
  set (T := 2 ^ j).
  assert (HT : 2 ^ 20 <= T) by (apply Z.pow_le_mono_r; lia).
  assert (Hid : T * (2 ^ kiw * 2 ^ t) = 2 ^ kw * 2 ^ kih * 2 ^ t2).
  { unfold T. rewrite <- !Z.pow_add_r by lia. f_equal. unfold j. lia. }
  assert (HP : 2 ^ 51 <= 2 ^ t) by (apply Z.pow_le_mono_r; lia).
  assert (0 < 2 ^ kw) by (apply Z.pow_pos_nonneg; lia).
  assert (0 < 2 ^ kiw) by (apply Z.pow_pos_nonneg; lia).
  assert (0 < 2 ^ kih) by (apply Z.pow_pos_nonneg; lia).
  assert (0 < 2 ^ t2) by (apply Z.pow_pos_nonneg; lia).
  rewrite Hvih, Hviw in Hdiv. rewrite Hvw in Hdiv2.
  pose proof (wide_arith w iw ih (2 ^ kw) (2 ^ kiw) (2 ^ kih) (2 ^ t) (2 ^ t2)
                T (Z.pos Mr) (Z.pos Mq)
                ltac:(lia) ltac:(lia) ltac:(lia) ltac:(lia) ltac:(lia)
                ltac:(lia) ltac:(lia) HP ltac:(lia) Hid HMr ltac:(lia)
                ltac:(lia) ltac:(lia) Hdiv Hdiv2)
    as Hclose.
  pose proof (round_half_bound (Z.pos Mq) T (w * ih) iw 16
                ltac:(lia) ltac:(lia) ltac:(lia) ltac:(lia) Hclose) as Hn.
  eexists. split; [reflexivity|]. split; [|exact Hn].
  set (n := (2 * Z.pos Mq + T) / (2 * T)) in *.
  assert (0 <= n) by (apply Z.div_pos; lia).
  split; [done|].
  assert (Hwih : w * ih < 2 ^ 16 * 2 ^ 16)
    by (apply Z.mul_lt_mono_nonneg; lia).
  assert (Hnn : n * 1 <= n * iw) by (apply Z.mul_le_mono_nonneg_l; lia).
  change (2 ^ 33) with (2 * (2 ^ 16 * 2 ^ 16)). lia.
Qed.
End WideBranch.

Section ExactOperations.
Import Binary64.

Lemma digits_scaled p q k :
  0 <= k → Z.pos q = Z.pos p * 2 ^ k →
  Z.pos (digits2_pos q) = Z.pos (digits2_pos p) + k.
Proof.
  intros Hk Hq. apply digits_unique. rewrite Hq.
  pose proof (digits2_pos_low p). pose proof (digits2_pos_bound p).
  assert (0 < 2 ^ k) by (apply Z.pow_pos_nonneg; lia).
  replace (Z.pos (digits2_pos p) + k - 1)
    with (Z.pos (digits2_pos p) - 1 + k) by lia.
  rewrite !Z.pow_add_r by lia. nia.
Qed.

(** Rounding an integer below 2^53 that is given with [k] extra binary
    digits: the result is the integer, normalised. *)
Lemma binary_round_scaled sx q k p :
  0 <= k <= 900 → Z.pos q = Z.pos p * 2 ^ k → Z.pos p < 2 ^ 53 →
  ∃ m e, binary_round prec emax sx q (- k) = S754_finite sx m e ∧
         2 ^ 52 <= Z.pos m < 2 ^ 53 ∧ -52 <= e <= 0 ∧
         Z.pos m = Z.pos p * 2 ^ (- e).
Proof.
  intros Hk Hq Hp.
  pose proof (digits_scaled p q k ltac:(lia) Hq) as Hdq.
  pose proof (digits2_pos_small p Hp) as Hdp.
  set (dp := Z.pos (digits2_pos p)) in *.
  assert (Hdp1 : 1 <= dp) by (unfold dp; lia).
  assert (0 < 2 ^ k) by (apply Z.pow_pos_nonneg; lia).
  unfold binary_round, shl_align, fexp, emin. rewrite Hdq.
  change prec with 53. change emax with 1024.
  replace (Z.max (dp + k + - k - 53) (3 - 1024 - 53)) with (dp - 53) by lia.
  replace (dp - 53 - - k) with (dp + k - 53) by lia.
  destruct (dp + k - 53) as [|n|d] eqn:Hn; cbv beta iota.
  - (* the mantissa has 53 digits already *)
    exists q, (- k). split.
    + apply round_aux_normal; lia.
    + split; [apply normal_digits; lia|]. split; [lia|].
      by rewrite Z.opp_involutive.
  - (* more than 53 digits: the low ones are zero *)
    pose proof (round_aux_frac sx (Z.pos q) 1 (- k) (Z.pos n)) as HG.
    rewrite Z.div_1_r in HG.
    replace (loc_frac (Z.pos q) 1) with loc_Exact in HG
      by (unfold loc_frac; by rewrite Z.mod_1_r).
    assert (Hdiv : Z.pos q = Z.pos p * 2 ^ (k - Z.pos n) * 2 ^ Z.pos n).
    { rewrite Hq, <- Z.mul_assoc, <- Z.pow_add_r by lia. do 2 f_equal. lia. }
    destruct HG as (M & c & Heq & Hc & HM & _ & Hex); try lia.
    { pose proof (digits2_pos_low q). pose proof (digits2_pos_bound q).
      rewrite Hdq in *.
      replace (52 + Z.pos n) with (dp + k - 1) by lia.
      replace (53 + Z.pos n) with (dp + k) by lia. done. }
    destruct Hex as [-> Hval].
    { rewrite Z.mul_1_l, Hdiv. apply Z.mod_mul. lia. }
    change prec with 53 in Heq. change emax with 1024 in Heq.
    exists M, (dp - 53). split.
    + rewrite Heq. f_equal. lia.
    + split; [done|]. split; [lia|].
      rewrite Z.mul_1_l, Hdiv in Hval.
      apply Z.mul_cancel_r in Hval; [|lia]. rewrite Hval. do 2 f_equal. lia.
  - (* fewer than 53 digits: shift left *)
    exists (Pos.iter xO q d), (dp - 53). split.
    + apply round_aux_normal; [|lia].
      rewrite digits2_pos_iter_xO. lia.
    + split.
      * apply normal_digits. rewrite digits2_pos_iter_xO. lia.
      * split; [lia|]. rewrite iter_xO_value, Hq, <- Z.mul_assoc.
        rewrite <- Z.pow_add_r by lia. do 2 f_equal. lia.
Qed.

Lemma normal_unique p m e m' e' :
  2 ^ 52 <= Z.pos m < 2 ^ 53 → 2 ^ 52 <= Z.pos m' < 2 ^ 53 →
  e <= 0 → e' <= 0 →
  Z.pos m = Z.pos p * 2 ^ (- e) → Z.pos m' = Z.pos p * 2 ^ (- e') →
  m = m' ∧ e = e'.
Proof.
  intros Hm Hm' He He' Hv Hv'.
  assert (Hee : e = e').
  { destruct (Z.lt_trichotomy e e') as [Hlt|[Heq|Hgt]]; [|done|].
    - assert (Hpow : 2 ^ (- e) = 2 ^ (- e') * 2 ^ (e' - e)).
      { rewrite <- Z.pow_add_r by lia. f_equal. lia. }
      assert (2 <= 2 ^ (e' - e))
        by (change 2 with (2 ^ 1) at 1; apply Z.pow_le_mono_r; lia).
      rewrite Hpow, Z.mul_assoc, <- Hv' in Hv. nia.
    - assert (Hpow : 2 ^ (- e') = 2 ^ (- e) * 2 ^ (e - e')).
      { rewrite <- Z.pow_add_r by lia. f_equal. lia. }
      assert (2 <= 2 ^ (e - e'))
        by (change 2 with (2 ^ 1) at 1; apply Z.pow_le_mono_r; lia).
      rewrite Hpow, Z.mul_assoc, <- Hv in Hv'. nia. }
  split; [|done]. subst e'. apply Pos2Z.inj. congruence.
Qed.

Lemma binary_round_int sx q k p :
  0 <= k <= 900 → Z.pos q = Z.pos p * 2 ^ k → Z.pos p < 2 ^ 53 →
  binary_round prec emax sx q (- k) = binary_round prec emax sx p 0.
Proof.
  intros Hk Hq Hp.
  destruct (binary_round_scaled sx q k p Hk Hq Hp)
    as (m & e & -> & Hm & He & Hv).
  destruct (binary_round_scaled sx p 0 p ltac:(lia) ltac:(lia) Hp)
    as (m' & e' & Heq & Hm' & He' & Hv').
  change (- 0) with 0 in Heq. rewrite Heq.
  destruct (normal_unique p m e m' e') as [-> ->]; try done; lia.
Qed.

Lemma shl_align_value m e ez :
  ez <= e → Z.pos (shl_align m e ez).1 = Z.pos m * 2 ^ (e - ez).
Proof.
  intros Hle. unfold shl_align.
  destruct (ez - e) as [|d|d] eqn:Hd; cbn [fst]; try lia.
  - replace (e - ez) with 0 by lia. lia.
  - rewrite iter_xO_value. do 2 f_equal. lia.
Qed.

(** The difference of two integers below 2^53 is computed exactly. *)
Lemma sub_exact a b :
  0 < a < 2 ^ 53 → 0 <= b < 2 ^ 53 →
  SFsub prec emax (of_Z a) (of_Z b) = of_Z (a - b).
Proof.
  intros Ha Hb. destruct a as [|pa|pa]; [lia| |lia].
  destruct (of_Z_pos pa) as (ma & ea & Hofa & Hda & Hea & Hva); [lia|].
  destruct b as [|pb|pb]; [| |lia].
  { rewrite Z.sub_0_r, Hofa. reflexivity. }
  destruct (of_Z_pos pb) as (mb & eb & Hofb & Hdb & Heb & Hvb); [lia|].
  rewrite Hofa, Hofb. cbn [SFsub cond_Zopp].
  set (ez := Z.min ea eb).
  assert (Hez : 0 <= - ez <= 52) by (unfold ez; lia).
  assert (Hza : ez <= ea) by (unfold ez; lia).
  assert (Hzb : ez <= eb) by (unfold ez; lia).
  rewrite !shl_align_value by done.
  assert (HA : Z.pos ma * 2 ^ (ea - ez) = Z.pos pa * 2 ^ (- ez)).
  { rewrite Hva, <- Z.mul_assoc, <- Z.pow_add_r by lia. do 2 f_equal. lia. }
  assert (HB : Z.pos mb * 2 ^ (eb - ez) = Z.pos pb * 2 ^ (- ez)).
  { rewrite Hvb, <- Z.mul_assoc, <- Z.pow_add_r by lia. do 2 f_equal. lia. }
  rewrite HA, HB, <- Z.mul_sub_distr_r.
  assert (0 < 2 ^ (- ez)) by (apply Z.pow_pos_nonneg; lia).
  unfold of_Z.
  destruct (Z.pos pa - Z.pos pb) as [|d|d] eqn:Hd.
  - reflexivity.
  - destruct (Z.pos d * 2 ^ (- ez)) as [|q|q] eqn:Hq; try lia.
    cbn [binary_normalize].
    rewrite <- (Z.opp_involutive ez).
    apply (binary_round_int false q (- ez) d); lia.
  - destruct (Z.neg d * 2 ^ (- ez)) as [|q|q] eqn:Hq; try lia.
    cbn [binary_normalize].
    rewrite <- (Z.opp_involutive ez).
    apply (binary_round_int true q (- ez) d); lia.
Qed.
End ExactOperations.

Section Compare.
Import Binary64.

Lemma ltb_normal m1 e1 m2 e2 :
  SFltb (S754_finite false m1 e1) (S754_finite false m2 e2) = true ↔
  e1 < e2 ∨ e1 = e2 ∧ Z.pos m1 < Z.pos m2.
Proof.
  unfold SFltb. cbn [SFcompare].
  destruct (Z.compare_spec e1 e2) as [He|He|He].
  - change (Pos.compare_cont Eq m1 m2) with (m1 ?= m2)%positive.
    destruct (Pos.compare_spec m1 m2) as [Hm|Hm|Hm]; split; try done; lia.
  - split; [by left|done].
  - split; [done|lia].
Qed.

(** For normal numbers with negative exponents, [SFltb] compares the
    values. *)
Lemma ltb_value m1 j1 m2 j2 :
  2 ^ 52 <= Z.pos m1 < 2 ^ 53 → 2 ^ 52 <= Z.pos m2 < 2 ^ 53 →
  0 <= j1 → 0 <= j2 →
  SFltb (S754_finite false m1 (- j1)) (S754_finite false m2 (- j2)) = true ↔
  Z.pos m1 * 2 ^ j2 < Z.pos m2 * 2 ^ j1.
Proof.
  intros H1 H2 Hj1 Hj2. rewrite ltb_normal.
  assert (0 < 2 ^ j1) by (apply Z.pow_pos_nonneg; lia).
  assert (0 < 2 ^ j2) by (apply Z.pow_pos_nonneg; lia).
  destruct (Z.lt_trichotomy j1 j2) as [Hlt|[->|Hgt]].
  - assert (Hp : 2 ^ j2 = 2 ^ j1 * 2 ^ (j2 - j1)).
    { rewrite <- Z.pow_add_r by lia. f_equal. lia. }
    assert (2 <= 2 ^ (j2 - j1))
      by (change 2 with (2 ^ 1) at 1; apply Z.pow_le_mono_r; lia).
    split; [lia|]. intros Hv. exfalso. rewrite Hp in Hv.
    assert (Z.pos m1 * 2 ^ (j2 - j1) < Z.pos m2) by nia. nia.
  - split.
    + intros [?|[_ Hm]]; [lia|]. by apply Z.mul_lt_mono_pos_r.
    + intros Hv. right. split; [done|]. by apply Z.mul_lt_mono_pos_r in Hv.
  - assert (Hp : 2 ^ j1 = 2 ^ j2 * 2 ^ (j1 - j2)).
    { rewrite <- Z.pow_add_r by lia. f_equal. lia. }
    assert (2 <= 2 ^ (j1 - j2))
      by (change 2 with (2 ^ 1) at 1; apply Z.pow_le_mono_r; lia).
    split; [|lia]. intros _. rewrite Hp.
    assert (Z.pos m1 < Z.pos m2 * 2 ^ (j1 - j2)) by nia. nia.
Qed.

(** The quotient of two sizes below 2^16. *)
Lemma div_small a b :
  0 < a < 2 ^ 16 → 0 < b < 2 ^ 16 →
  ∃ M j, SFdiv prec emax (of_Z a) (of_Z b) = S754_finite false M (- j) ∧
         36 <= j <= 68 ∧ 2 ^ 52 <= Z.pos M < 2 ^ 53 ∧
         2 * Z.abs (Z.pos M * b - a * 2 ^ j) <= b.
Proof.
  intros Ha Hb.
  destruct (of_Z_small a Ha) as (ma & ka & -> & Hka & Hma & Hva).
  destruct (of_Z_small b Hb) as (mb & kb & -> & Hkb & Hmb & Hvb).
  destruct (div_normal false ma (- ka) false mb (- kb))
    as (M & t & Hdv & Ht & HM & Hdiv); try lia.
  cbn [xorb] in Hdv. rewrite Hdv.
  exists M, (ka - kb + t). split; [f_equal; lia|]. split; [lia|].
  split; [done|].
  rewrite Hva, Hvb in Hdiv.
  assert (0 < 2 ^ kb) by (apply Z.pow_pos_nonneg; lia).
  assert (Hp : 2 ^ ka * 2 ^ t = 2 ^ (ka - kb + t) * 2 ^ kb).
  { rewrite <- !Z.pow_add_r by lia. f_equal. lia. }
  replace (Z.pos M * (b * 2 ^ kb) - a * 2 ^ ka * 2 ^ t)
    with ((Z.pos M * b - a * 2 ^ (ka - kb + t)) * 2 ^ kb) in Hdiv
    by (rewrite <- Z.mul_assoc, Hp; ring).
  rewrite Z.abs_mul, (Z.abs_eq (2 ^ kb)) in Hdiv by lia.
  assert (Hfin : 2 * Z.abs (Z.pos M * b - a * 2 ^ (ka - kb + t)) * 2 ^ kb
                 <= b * 2 ^ kb) by lia.
  apply Z.mul_le_mono_pos_r in Hfin; lia.
Qed.

Lemma compare_arith w h iw ih Mr jr Mq jq :
  0 < w → 0 < h < 2 ^ 16 → 0 < iw → 0 < ih < 2 ^ 16 →
  34 <= jr → 34 <= jq →
  2 * Z.abs (Mr * ih - iw * 2 ^ jr) <= ih →
  2 * Z.abs (Mq * h - w * 2 ^ jq) <= h →
  h * iw < w * ih → Mr * 2 ^ jq < Mq * 2 ^ jr.
Proof.
  intros Hw Hh Hiw Hih Hjr Hjq Hr Hq Hlt.
  set (R := 2 ^ jr) in *. set (Q := 2 ^ jq) in *.
  assert (HR : 2 ^ 34 <= R) by (apply Z.pow_le_mono_r; lia).
  assert (HQ : 2 ^ 34 <= Q) by (apply Z.pow_le_mono_r; lia).
  assert (Hhih : 0 < h * ih < 2 ^ 16 * 2 ^ 16).
  { split; [nia|]. apply Z.mul_lt_mono_nonneg; lia. }
  (* scale both sides by [h * ih] *)
  apply (Z.mul_lt_mono_pos_l (2 * (h * ih))); [lia|].
  assert (H1 : 2 * (h * ih) * (Mr * Q) <= (2 * (iw * R) + ih) * (h * Q)).
  { replace (2 * (h * ih) * (Mr * Q)) with (2 * (Mr * ih) * (h * Q)) by ring.
    apply Z.mul_le_mono_nonneg_r; [nia|lia]. }
  assert (H2 : (2 * (w * Q) - h) * (ih * R) <= 2 * (h * ih) * (Mq * R)).
  { replace (2 * (h * ih) * (Mq * R)) with (2 * (Mq * h) * (ih * R)) by ring.
    apply Z.mul_le_mono_nonneg_r; [nia|lia]. }
  assert (H3 : (2 * (iw * R) + ih) * (h * Q) < (2 * (w * Q) - h) * (ih * R)).
  { replace ((2 * (iw * R) + ih) * (h * Q))
      with (2 * (h * iw) * (R * Q) + h * ih * Q) by ring.
    replace ((2 * (w * Q) - h) * (ih * R))
      with (2 * (w * ih) * (R * Q) - h * ih * R) by ring.
    assert (Hgap : 2 * (h * iw) * (R * Q) + 2 * (R * Q) <=
                   2 * (w * ih) * (R * Q)) by nia.
    assert (Hq1 : h * ih * Q < 2 ^ 32 * Q)
      by (apply Z.mul_lt_mono_pos_r; [lia|change (2 ^ 32) with (2 ^ 16 * 2 ^ 16); lia]).
    assert (Hr1 : h * ih * R < 2 ^ 32 * R)
      by (apply Z.mul_lt_mono_pos_r; [lia|change (2 ^ 32) with (2 ^ 16 * 2 ^ 16); lia]).
    assert (Hq2 : 2 ^ 32 * Q * 4 <= R * Q)
      by (replace (2 ^ 32 * Q * 4) with (2 ^ 34 * Q) by (change (2 ^ 34) with (2 ^ 32 * 4); ring);
          apply Z.mul_le_mono_nonneg_r; lia).
    assert (Hr2 : 2 ^ 32 * R * 4 <= R * Q)
      by (replace (2 ^ 32 * R * 4) with (R * 2 ^ 34) by (change (2 ^ 34) with (2 ^ 32 * 4); ring);
          apply Z.mul_le_mono_nonneg_l; lia).
    lia. }
  lia.
Qed.
End Compare.

Section Values.
Import Binary64.

Lemma pow2_Q k : 0 <= k → (inject_Z (2 ^ k) * 2 ^ (- k) == 1)%Q.
Proof.
  intros Hk.
  rewrite Qpower_opp, Zpower_Qpower by done.
  change (inject_Z 2) with 2%Q.
  apply Qmult_inv_r. apply Qpower_not_0. done.
Qed.

(** An integer below 2^53 as a binary64 number, with its sign. *)
Lemma of_Z_nonzero d :
  d ≠ 0 → Z.abs d < 2 ^ 53 →
  ∃ m e, of_Z d = S754_finite (d <? 0) m e ∧
         2 ^ 52 <= Z.pos m < 2 ^ 53 ∧ -52 <= e <= 0 ∧
         Z.pos m = Z.abs d * 2 ^ (- e).
Proof.
  intros Hd Hb. destruct d as [|p|p]; [done| |].
  - destruct (binary_round_scaled false p 0 p) as (m & e & Heq & H); try lia.
    exists m, e. split; [exact Heq|exact H].
  - destruct (binary_round_scaled true p 0 p) as (m & e & Heq & H); try lia.
    exists m, e. split; [exact Heq|exact H].
Qed.

(** Half of an integer below 2^53 is computed exactly. *)
Lemma half_value d :
  Z.abs d < 2 ^ 53 →
  ∃ v, B2Q (SFdiv prec emax (of_Z d) (of_Z 2)) = Some v ∧
       (v == inject_Z d / 2)%Q ∧
       (SFdiv prec emax (of_Z d) (of_Z 2) = of_Z 0 ↔ d = 0).
Proof.
  intros Hb. destruct (Z.eq_dec d 0) as [->|Hd].
  - exists 0%Q. split; [reflexivity|]. split; [reflexivity|]. done.
  - destruct (of_Z_nonzero d Hd Hb) as (m & e & -> & Hm & He & Hv).
    rewrite half_normal by (done || lia).
    eexists. split; [reflexivity|]. split; [|done].
    assert (Hsm : cond_Zopp (d <? 0) (Z.pos m) = d * 2 ^ (- e)).
    { rewrite Hv. destruct (Z.ltb_spec d 0); cbn [cond_Zopp].
      - rewrite Z.abs_neq by lia. ring.
      - by rewrite Z.abs_eq by lia. }
    rewrite Hsm, inject_Z_mult.
    pose proof (pow2_Q (1 - e) ltac:(lia)) as Hp.
    replace (1 - e) with (Z.succ (- e)) in Hp at 1 by lia.
    rewrite Z.pow_succ_r, inject_Z_mult in Hp by lia.
    replace (- (1 - e)) with (e - 1) in Hp by lia.
    change (inject_Z 2) with 2%Q in Hp.
    set (P := inject_Z (2 ^ (- e))) in *. set (X := (2 ^ (e - 1))%Q) in *.
    assert (HPX : (P * X == 1 / 2)%Q).
    { apply (Qmult_inj_l _ _ 2%Q); [done|]. rewrite Qmult_assoc, Hp.
      reflexivity. }
    rewrite <- Qmult_assoc, HPX. unfold Qdiv. ring.
Qed.
End Values.

(** ** Letterboxing arithmetic *)

Section TargetRect.
Import Binary64.

(** The comparison of [render] agrees with the exact one whenever the two
    ratios differ. *)
Lemma branch_wide w h iw ih :
  0 < w < 2 ^ 16 → 0 < h < 2 ^ 16 → 0 < iw < 2 ^ 16 → 0 < ih < 2 ^ 16 →
  h * iw < w * ih →
  SFltb (SFdiv prec emax (of_Z iw) (of_Z ih))
        (SFdiv prec emax (of_Z w) (of_Z h)) = true.
Proof.
  intros Hw Hh Hiw Hih Hlt.
  destruct (div_small iw ih Hiw Hih) as (Mr & jr & -> & Hjr & HMr & Hr).
  destruct (div_small w h Hw Hh) as (Mq & jq & -> & Hjq & HMq & Hq).
  apply ltb_value; try lia.
  apply (compare_arith w h iw ih); try lia.
Qed.

Lemma branch_narrow w h iw ih :
  0 < w < 2 ^ 16 → 0 < h < 2 ^ 16 → 0 < iw < 2 ^ 16 → 0 < ih < 2 ^ 16 →
  w * ih < h * iw →
  SFltb (SFdiv prec emax (of_Z iw) (of_Z ih))
        (SFdiv prec emax (of_Z w) (of_Z h)) = false.
Proof.
  intros Hw Hh Hiw Hih Hlt.
  destruct (div_small iw ih Hiw Hih) as (Mr & jr & -> & Hjr & HMr & Hr).
  destruct (div_small w h Hw Hh) as (Mq & jq & -> & Hjq & HMq & Hq).
  apply not_true_iff_false. rewrite ltb_value by lia. intros Hv.
  pose proof (compare_arith iw ih w h (Z.pos Mq) jq (Z.pos Mr) jr
                ltac:(lia) ltac:(lia) ltac:(lia) ltac:(lia)
                ltac:(lia) ltac:(lia) Hq Hr ltac:(lia)).
  lia.
Qed.

(** The target rectangle in binary64, for a surface and an image below
    2^16 pixels a side: one dimension is the surface's, the other is
    within one half of what the image's ratio asks for, the vertical
    offset is zero and the horizontal one is exactly half of what the
    width leaves. *)
Lemma target_rect_binary64 w h iw ih :
  0 < w < 2 ^ 16 → 0 < h < 2 ^ 16 → 0 < iw < 2 ^ 16 → 0 < ih < 2 ^ 16 →
  ∃ (nw nh : Z) (x : spec_float) (v : Q),
    target_rect (N:=spec_float) w h
      (Some (num_div (num_of_Z iw) (num_of_Z ih))) =
      (Some x, Some (of_Z 0), Some (of_Z nw), Some (of_Z nh)) ∧
    B2Q x = Some v ∧ (v == inject_Z (w - nw) / 2)%Q ∧
    (x = of_Z 0 ↔ nw = w) ∧
    0 <= nw < 2 ^ 33 ∧ 0 <= nh < 2 ^ 33 ∧
    (h * iw < w * ih → nw = w ∧ 2 * Z.abs (nh * iw - w * ih) <= iw) ∧
    (w * ih < h * iw → nh = h ∧ 2 * Z.abs (nw * ih - h * iw) <= ih) ∧
    (w * ih = h * iw → nw = w ∧ nh = h).
Proof.
  intros Hw Hh Hiw Hih. unfold target_rect.
  cbn [js_gt js_div js_mul js_sub js_lift2 Math_round fmap option_fmap
       option_map num_gt num_div num_mul num_sub num_of_Z num_round number].
  destruct (SFltb _ _) eqn:Hcmp.
  - destruct (wide_height w iw ih Hw Hiw Hih) as (n & -> & Hn & Hb).
    exists w, n, (of_Z 0), 0%Q.
    split; [done|]. split; [done|].
    split; [by rewrite Z.sub_diag|]. split; [done|].
    split; [lia|]. split; [done|]. split; [done|]. split.
    + intros Hlt. rewrite (branch_narrow w h iw ih) in Hcmp by done. done.
    + intros Heq. split; [done|]. rewrite Heq in Hb.
      replace (n * iw - h * iw) with ((n - h) * iw) in Hb by ring.
      rewrite Z.abs_mul, (Z.abs_eq iw) in Hb by lia. nia.
  - destruct (narrow_width h iw ih Hh Hiw Hih) as (n & -> & Hn & Hb).
    rewrite sub_exact by lia.
    destruct (half_value (w - n)) as (v & Hv & Hval & Hzero); [lia|].
    exists n, h, (SFdiv prec emax (of_Z (w - n)) (of_Z 2)), v.
    split; [done|]. split; [done|]. split; [done|].
    split; [rewrite Hzero; lia|].
    split; [done|]. split; [lia|]. split.
    + intros Hlt. rewrite (branch_wide w h iw ih) in Hcmp by done. done.
    + split; [done|]. intros Heq. split; [|done]. rewrite <- Heq in Hb.
      replace (n * ih - w * ih) with ((n - w) * ih) in Hb by ring.
      rewrite Z.abs_mul, (Z.abs_eq ih) in Hb by lia. nia.
Qed.
End TargetRect.

Section Letterbox.

(** The last index: the factor is 1 and the reduced draw size is the
    surface, for every surface below 2^53 pixels a side. *)
Lemma full_scale_draw_binary64 (s : state spec_float) :
  pxIndex s = (length (pxFactorValues (N:=spec_float)) - 1)%nat →
  (0 <= canvas_width s < 2 ^ 53) → (0 <= canvas_height s < 2 ^ 53) →
  f_scale (render_frame s) = Some (Binary64.of_Z 1) ∧
  f_scaledW (render_frame s) = Some (Binary64.of_Z (canvas_width s)) ∧
  f_scaledH (render_frame s) = Some (Binary64.of_Z (canvas_height s)) ∧
  (f_newWidth (render_frame s) = Some (Binary64.of_Z (canvas_width s)) ∨
   f_newHeight (render_frame s) = Some (Binary64.of_Z (canvas_height s))).
Proof.
  intros Hpx Hw Hh. set (w := canvas_width s) in *. set (h := canvas_height s) in *.
  assert (Hscale : pxFactorValues (N:=spec_float) !! pxIndex s =
                   Some (num_decimal 10 10)) by (by rewrite Hpx).
  split_and!.
  - rewrite render_frame_scale, Hscale. by vm_compute.
  - unfold render_frame. fold w h. rewrite Hscale.
    destruct (target_rect w h (imgRatio s)) as [[[? ?] ?] ?].
    cbn [f_scaledW Math_floor js_mul js_lift2 fmap option_fmap option_map].
    f_equal. by apply floor_mul_one.
  - unfold render_frame. fold w h. rewrite Hscale.
    destruct (target_rect w h (imgRatio s)) as [[[? ?] ?] ?].
    cbn [f_scaledH Math_floor js_mul js_lift2 fmap option_fmap option_map].
    f_equal. by apply floor_mul_one.
  - unfold render_frame. fold w h. unfold target_rect.
    destruct (js_gt _ _); [by left|by right].
Qed.
End Letterbox.

(** C2, as the code has it.  [render] never assigns [newY]: the vertical
    offset is zero in every frame, so at most one offset is non-zero.  In
    binary64, for a surface and an image below 2^16 pixels a side: when
    the surface is wider than the image the width is kept, the
    horizontal offset is zero and the height is an integer within one
    half of [w * ih / iw]; when it is narrower the height is kept, the
    width is an integer within one half of [h * iw / ih] and the
    horizontal offset is exactly [(w - newWidth) / 2]; that offset is
    zero exactly when the width is the surface's, as it is when the two
    ratios agree.  A 300 by 300 surface and a 2:1 image give a width of
    600 at offset -150. *)
Theorem letterbox_offsets :
  (∀ (N : Type) (HN : JsNumber N) (s : state N),
     f_newY (render_frame s) = Some (num_of_Z 0)) ∧
  (∀ (s : state spec_float) (iw ih : Z),
     0 < canvas_width s < 2 ^ 16 → 0 < canvas_height s < 2 ^ 16 →
     0 < iw < 2 ^ 16 → 0 < ih < 2 ^ 16 →
     imgRatio s = Some (num_div (num_of_Z iw) (num_of_Z ih)) →
     ∃ (nw nh : Z) (x : spec_float) (v : Q),
       f_newWidth (render_frame s) = Some (Binary64.of_Z nw) ∧
       f_newHeight (render_frame s) = Some (Binary64.of_Z nh) ∧
       f_newX (render_frame s) = Some x ∧
       B2Q x = Some v ∧
       (v == inject_Z (canvas_width s - nw) / 2)%Q ∧
       (x = Binary64.of_Z 0 ↔ nw = canvas_width s) ∧
       (canvas_height s * iw < canvas_width s * ih →
          nw = canvas_width s ∧
          2 * Z.abs (nh * iw - canvas_width s * ih) <= iw) ∧
       (canvas_width s * ih < canvas_height s * iw →
          nh = canvas_height s ∧
          2 * Z.abs (nw * ih - canvas_height s * iw) <= ih) ∧
       (canvas_width s * ih = canvas_height s * iw →
          nw = canvas_width s ∧ nh = canvas_height s)) ∧
  target_rect (N:=spec_float) 300 300 (Some (Binary64.of_Z 2)) =
    (Some (Binary64.of_Z (-150)), Some (Binary64.of_Z 0),
     Some (Binary64.of_Z 600), Some (Binary64.of_Z 300)).
Proof.
  split_and!; [| |by vm_compute].
  - intros N HN s. unfold render_frame, target_rect.
    by destruct (js_gt _ _).
  - intros s iw ih Hw Hh Hiw Hih Hr.
    destruct (target_rect_binary64 (canvas_width s) (canvas_height s) iw ih
                Hw Hh Hiw Hih)
      as (nw & nh & x & v & Heq & Hv & Hval & Hzero & _ & _ & H1 & H2 & H3).
    exists nw, nh, x, v. unfold render_frame. rewrite Hr, Heq.
    cbn [f_newX f_newY f_newWidth f_newHeight]. split_and!; done.
Qed.

(** C4, as the code has it.  At the last index the factor is 1 and the
    reduced draw size is the size of the surface, exactly, in binary64
    (for surfaces below 2^53 pixels a side).  The target rectangle shares
    the dimension that [render] leaves alone; when the surface has the
    ratio of the image (both below 2^16 pixels a side) it shares both,
    and the offsets are zero: only then is the second draw a copy of the
    first at the same size. *)
Theorem full_scale_draw :
  (∀ s : state spec_float,
     pxIndex s = (length (pxFactorValues (N:=spec_float)) - 1)%nat →
     0 <= canvas_width s < 2 ^ 53 → 0 <= canvas_height s < 2 ^ 53 →
     f_scale (render_frame s) = Some (Binary64.of_Z 1) ∧
     f_scaledW (render_frame s) = Some (Binary64.of_Z (canvas_width s)) ∧
     f_scaledH (render_frame s) = Some (Binary64.of_Z (canvas_height s)) ∧
     (f_newWidth (render_frame s) = Some (Binary64.of_Z (canvas_width s)) ∨
      f_newHeight (render_frame s) = Some (Binary64.of_Z (canvas_height s)))) ∧
  (∀ (s : state spec_float) (iw ih : Z),
     pxIndex s = (length (pxFactorValues (N:=spec_float)) - 1)%nat →
     0 < canvas_width s < 2 ^ 16 → 0 < canvas_height s < 2 ^ 16 →
     0 < iw < 2 ^ 16 → 0 < ih < 2 ^ 16 →
     imgRatio s = Some (num_div (num_of_Z iw) (num_of_Z ih)) →
     canvas_width s * ih = canvas_height s * iw →
     f_scaledW (render_frame s) = Some (Binary64.of_Z (canvas_width s)) ∧
     f_newWidth (render_frame s) = Some (Binary64.of_Z (canvas_width s)) ∧
     f_scaledH (render_frame s) = Some (Binary64.of_Z (canvas_height s)) ∧
     f_newHeight (render_frame s) = Some (Binary64.of_Z (canvas_height s)) ∧
     f_newX (render_frame s) = Some (Binary64.of_Z 0) ∧
     f_newY (render_frame s) = Some (Binary64.of_Z 0)).
Proof.
  split.
  - apply full_scale_draw_binary64.
  - intros s iw ih Hpx Hw Hh Hiw Hih Hr Heq.
    destruct (full_scale_draw_binary64 s Hpx ltac:(lia) ltac:(lia))
      as (_ & HsW & HsH & _).
    destruct (target_rect_binary64 (canvas_width s) (canvas_height s) iw ih
                Hw Hh Hiw Hih)
      as (nw & nh & x & v & Ht & _ & _ & Hzero & _ & _ & _ & _ & H3).
    destruct (H3 Heq) as [-> ->].
    assert (Hx : x = Binary64.of_Z 0) by (by apply Hzero).
    subst x. split; [done|]. split; [|split; [done|]].
    all: unfold render_frame; rewrite Hr, Ht; done.
Qed.

(** ** Concrete runs *)



(** C2 as stated fails: when the surface has the ratio of the image both
    offsets are zero. *)
Lemma matching_ratio_has_no_offset :
  ¬ (∀ f, f ∈ renders loaded →
          (f_newX f ≠ Some (Binary64.of_Z 0) ∧ f_newY f = Some (Binary64.of_Z 0)) ∨
          (f_newX f = Some (Binary64.of_Z 0) ∧ f_newY f ≠ Some (Binary64.of_Z 0))) ∧
  f_newX <$> renders loaded = [Some (Binary64.of_Z 0)] ∧
  f_newY <$> renders loaded = [Some (Binary64.of_Z 0)].
Proof.
  split; [|by vm_compute].
  intros Hall.
  assert (Hin : render_frame (set_canvas 400 200
            (set_imgRatio (Some (num_div (num_of_Z 800) (num_of_Z 400)))
               (set_img_pending false (init 400 200)))) ∈ renders loaded).
  { apply list_elem_of_singleton. reflexivity. }
  destruct (Hall _ Hin) as [[Hx _]|[_ Hy]].
  - by apply Hx.
  - by apply Hy.
Qed.

Lemma letterbox_offsets_witness :
  0 < canvas_width square64 < 2 ^ 16 ∧ 0 < canvas_height square64 < 2 ^ 16 ∧
  0 < 600 < 2 ^ 16 ∧ 0 < 300 < 2 ^ 16 ∧
  imgRatio square64 = Some (num_div (num_of_Z 600) (num_of_Z 300)) ∧
  ∃ (nw nh : Z) (x : spec_float) (v : Q),
    f_newWidth (render_frame square64) = Some (Binary64.of_Z nw) ∧
    f_newHeight (render_frame square64) = Some (Binary64.of_Z nh) ∧
    f_newX (render_frame square64) = Some x ∧
    B2Q x = Some v ∧
    (v == inject_Z (canvas_width square64 - nw) / 2)%Q ∧
    nh = canvas_height square64 ∧
    2 * Z.abs (nw * 300 - canvas_height square64 * 600) <= 300.
Proof.
  assert (Hw : 0 < canvas_width square64 < 2 ^ 16)
    by (vm_compute; split; reflexivity).
  assert (Hh : 0 < canvas_height square64 < 2 ^ 16)
    by (vm_compute; split; reflexivity).
  assert (Hiw : 0 < 600 < 2 ^ 16) by (split; reflexivity).
  assert (Hih : 0 < 300 < 2 ^ 16) by (split; reflexivity).
  assert (Hr : imgRatio square64 = Some (num_div (num_of_Z 600) (num_of_Z 300)))
    by (vm_compute; reflexivity).
  assert (Hlt : canvas_width square64 * 300 < canvas_height square64 * 600)
    by (vm_compute; reflexivity).
  pose proof letterbox_offsets as (_ & H64 & _).
  destruct (H64 square64 600 300 Hw Hh Hiw Hih Hr)
    as (nw & nh & x & v & Hnw & Hnh & Hx & Hv & Hval & _ & _ & Hnarrow & _).
  destruct (Hnarrow Hlt) as [Hh' Hb].
  refine (conj Hw (conj Hh (conj Hiw (conj Hih (conj Hr _))))).
  exists nw, nh, x, v.
  exact (conj Hnw (conj Hnh (conj Hx (conj Hv (conj Hval (conj Hh' Hb)))))).
Defined.

(** C3 as stated fails: after the render at the last index a timer is
    armed. *)
Lemma timer_armed_after_last_render :
  f_index <$> renders revealed = [0; 0; 1; 2; 3; 4]%nat ∧
  pxIndex revealed = (length (pxFactorValues (N:=spec_float)) - 1)%nat ∧
  last (effects revealed) = Some (SetTimeout 4 CbStep 100) ∧
  timers revealed !! 4%nat = Some (Timer 400 100 CbStep) ∧
  ¬ pending CbStep revealed = ∅.
Proof.
  split_and!; by vm_compute.
Qed.

Lemma last_step_arms_a_final_timer_witness :
  (timers (run (init (N:=spec_float) 400 200) to_last_step) !! 3%nat =
     Some (Timer 300 100 CbStep) ∧
   is_due (Timer 300 100 CbStep)
     (run (init (N:=spec_float) 400 200) to_last_step) = true ∧
   S (pxIndex (run (init (N:=spec_float) 400 200) to_last_step)) = 4%nat ∧
   ∃ f, f_index f = 4%nat ∧
        effects (step (run (init (N:=spec_float) 400 200) to_last_step)
                   (TimerFire 3)) =
          effects (run (init (N:=spec_float) 400 200) to_last_step) ++
            [Render f; SetTimeout 4 CbStep 100]) ∧
  (timers (run (init (N:=spec_float) 400 200)
             (to_last_step ++ [TimerFire 3; Elapse 100])) !! 4%nat =
     Some (Timer 400 100 CbStep) ∧
   pxIndex (run (init (N:=spec_float) 400 200)
              (to_last_step ++ [TimerFire 3; Elapse 100])) = 4%nat ∧
   pxIndex (step (run (init (N:=spec_float) 400 200)
                    (to_last_step ++ [TimerFire 3; Elapse 100]))
              (TimerFire 4)) = 5%nat ∧
   effects (step (run (init (N:=spec_float) 400 200)
                    (to_last_step ++ [TimerFire 3; Elapse 100]))
              (TimerFire 4)) =
     effects (run (init (N:=spec_float) 400 200)
                (to_last_step ++ [TimerFire 3; Elapse 100]))).
Proof.
  split.
  - pose proof (last_step_arms_a_final_timer (N:=spec_float) 400 200
      to_last_step 3%nat (Timer 300 100 CbStep)) as Hthm.
    cbv zeta in Hthm.
    assert (H1 : timers (run (init (N:=spec_float) 400 200) to_last_step)
                   !! 3%nat = Some (Timer 300 100 CbStep))
      by (vm_compute; reflexivity).
    assert (H2 : is_due (Timer 300 100 CbStep)
                   (run (init (N:=spec_float) 400 200) to_last_step) = true)
      by (vm_compute; reflexivity).
    assert (H3 : S (pxIndex (run (init (N:=spec_float) 400 200) to_last_step))
                 = 4%nat) by (vm_compute; reflexivity).
    destruct (Hthm H1 eq_refl H2) as [Harm _].
    destruct (Harm H3) as (f & Hf & _ & He & _).
    split_and!; try assumption. exists f. split; assumption.
  - pose proof (last_step_arms_a_final_timer (N:=spec_float) 400 200
      (to_last_step ++ [TimerFire 3; Elapse 100]) 4%nat
      (Timer 400 100 CbStep)) as Hthm.
    cbv zeta in Hthm.
    assert (H1 : timers (run (init (N:=spec_float) 400 200)
                   (to_last_step ++ [TimerFire 3; Elapse 100])) !! 4%nat =
                 Some (Timer 400 100 CbStep)) by (vm_compute; reflexivity).
    assert (H2 : is_due (Timer 400 100 CbStep)
                   (run (init (N:=spec_float) 400 200)
                      (to_last_step ++ [TimerFire 3; Elapse 100])) = true)
      by (vm_compute; reflexivity).
    assert (H3 : pxIndex (run (init (N:=spec_float) 400 200)
                   (to_last_step ++ [TimerFire 3; Elapse 100])) = 4%nat)
      by (vm_compute; reflexivity).
    destruct (Hthm H1 eq_refl H2) as [_ Hdone].
    destruct (Hdone H3) as (Hpx & He & _).
    split_and!; assumption.
Defined.

(** C4 as stated fails: at the last index the reduced draw size is the
    surface, 300 by 300, while the target rectangle is 600 by 300. *)
Lemma full_scale_size_is_not_target :
  ∃ f, last (renders square64) = Some f ∧ f_index f = 4%nat ∧
       f_scale f = Some (Binary64.of_Z 1) ∧
       f_scaledW f = Some (Binary64.of_Z 300) ∧
       f_scaledH f = Some (Binary64.of_Z 300) ∧
       f_newWidth f = Some (Binary64.of_Z 600) ∧
       f_newHeight f = Some (Binary64.of_Z 300).
Proof.
  eexists. split; [by vm_compute|]. by vm_compute.
Qed.

Lemma full_scale_draw_witness :
  pxIndex square64 = (length (pxFactorValues (N:=spec_float)) - 1)%nat ∧
  0 <= canvas_width square64 < 2 ^ 53 ∧
  0 <= canvas_height square64 < 2 ^ 53 ∧
  f_scaledW (render_frame square64) =
    Some (Binary64.of_Z (canvas_width square64)) ∧
  f_scaledH (render_frame square64) =
    Some (Binary64.of_Z (canvas_height square64)).
Proof.
  pose proof full_scale_draw as [H64 _].
  assert (Hpx : pxIndex square64 =
                (length (pxFactorValues (N:=spec_float)) - 1)%nat)
    by (vm_compute; reflexivity).
  assert (Hw : 0 <= canvas_width square64 < 2 ^ 53)
    by (vm_compute; split; [discriminate|reflexivity]).
  assert (Hh : 0 <= canvas_height square64 < 2 ^ 53)
    by (vm_compute; split; [discriminate|reflexivity]).
  destruct (H64 square64 Hpx Hw Hh) as (_ & HsW & HsH & _).
  exact (conj Hpx (conj Hw (conj Hh (conj HsW HsH)))).
Defined.

Lemma sequencer_steps_witness :
  (enter_top (run (init (N:=spec_float) 400 200) [ImgLoad 800 400]) = Live ∧
   pxIndex (step (run (init (N:=spec_float) 400 200) [ImgLoad 800 400])
              ScrollTop) = 0%nat) ∧
  (timers (run (init (N:=spec_float) 400 200)
             [ImgLoad 800 400; ScrollTop; Elapse 100]) !! 0%nat =
     Some (Timer 0 100 CbStep) ∧
   is_due (Timer 0 100 CbStep)
     (run (init (N:=spec_float) 400 200)
        [ImgLoad 800 400; ScrollTop; Elapse 100]) = true ∧
   pxIndex (step (run (init (N:=spec_float) 400 200)
                    [ImgLoad 800 400; ScrollTop; Elapse 100]) (TimerFire 0)) =
     S (pxIndex (run (init (N:=spec_float) 400 200)
                   [ImgLoad 800 400; ScrollTop; Elapse 100]))).
Proof.
  split.
  - pose proof (sequencer_steps (N:=spec_float) 400 200 [ImgLoad 800 400])
      as [Henter _].
    cbv zeta in Henter.
    assert (H1 : enter_top (run (init (N:=spec_float) 400 200)
                   [ImgLoad 800 400]) = Live) by (vm_compute; reflexivity).
    destruct (Henter H1) as (_ & Hpx & _). split; assumption.
  - pose proof (sequencer_steps (N:=spec_float) 400 200
                  [ImgLoad 800 400; ScrollTop; Elapse 100]) as [_ Hfire].
    cbv zeta in Hfire.
    assert (H1 : timers (run (init (N:=spec_float) 400 200)
                   [ImgLoad 800 400; ScrollTop; Elapse 100]) !! 0%nat =
                 Some (Timer 0 100 CbStep)) by (vm_compute; reflexivity).
    assert (H2 : is_due (Timer 0 100 CbStep)
                   (run (init (N:=spec_float) 400 200)
                      [ImgLoad 800 400; ScrollTop; Elapse 100]) = true)
      by (vm_compute; reflexivity).
    destruct (Hfire 0%nat (Timer 0 100 CbStep) H1 eq_refl) as (_ & _ & Hdue).
    destruct (Hdue H2) as [Hpx _]. split_and!; assumption.
Defined.

Lemma debounced_resize_witness :
  timers (run (init (N:=spec_float) 400 200)
            [ImgLoad 800 400; WindowResize 500 250; Elapse 100]) !! 0%nat =
    Some (Timer 0 100 CbResize) ∧
  is_due (Timer 0 100 CbResize)
    (run (init (N:=spec_float) 400 200)
       [ImgLoad 800 400; WindowResize 500 250; Elapse 100]) = true ∧
  canvas_width (step (run (init (N:=spec_float) 400 200)
                        [ImgLoad 800 400; WindowResize 500 250; Elapse 100])
                  (TimerFire 0)) =
    offsetWidth (run (init (N:=spec_float) 400 200)
                   [ImgLoad 800 400; WindowResize 500 250; Elapse 100]) ∧
  pxIndex (step (run (init (N:=spec_float) 400 200)
                   [ImgLoad 800 400; WindowResize 500 250; Elapse 100])
             (TimerFire 0)) = (length (pxFactorValues (N:=spec_float)) - 1)%nat.
Proof.
  pose proof (debounced_resize (N:=spec_float) 400 200
                [ImgLoad 800 400; WindowResize 500 250; Elapse 100])
    as [_ Hfire].
  cbv zeta in Hfire.
  assert (H1 : timers (run (init (N:=spec_float) 400 200)
                 [ImgLoad 800 400; WindowResize 500 250; Elapse 100]) !! 0%nat =
               Some (Timer 0 100 CbResize)) by (vm_compute; reflexivity).
  assert (H2 : is_due (Timer 0 100 CbResize)
                 (run (init (N:=spec_float) 400 200)
                    [ImgLoad 800 400; WindowResize 500 250; Elapse 100]) = true)
    by (vm_compute; reflexivity).
  destruct (Hfire 0%nat (Timer 0 100 CbResize) H1 eq_refl)
    as (_ & _ & _ & _ & _ & _ & Hdue).
  destruct (Hdue H2) as (Hw & _ & Hpx & _). split_and!; assumption.
Defined.


Lemma render_only_after_load_witness :
  (∀ iw ih, ImgLoad iw ih ∉ [Elapse 5; WindowResize 640 480; ScrollTop]) ∧
  img_pending (run (init (N:=spec_float) 400 200)
                 [Elapse 5; WindowResize 640 480; ScrollTop]) = true ∧
  renders (run (init (N:=spec_float) 400 200)
             [Elapse 5; WindowResize 640 480; ScrollTop]) = [].
Proof.
  assert (Hno : ∀ iw ih,
            ImgLoad iw ih ∉ [Elapse 5; WindowResize 640 480; ScrollTop]).
  { intros iw ih Hin.
    repeat (apply elem_of_cons in Hin as [Hin|Hin]; [discriminate|]).
    by apply elem_of_nil in Hin. }
  split; [exact Hno|].
  pose proof (render_only_after_load (N:=spec_float) 400 200
                [Elapse 5; WindowResize 640 480; ScrollTop]) as (_ & _ & Hthm).
  exact (Hthm Hno).
Defined.

(** ** Where the constructor puts the canvas *)

Section Placement.
Context {node : Type} `{EqDecision node}.

Lemma insertBefore_head (c : node) l1 r l2 :
  r ∉ l1 → insertBefore c (Some r) (l1 ++ r :: l2) = Some (l1 ++ c :: r :: l2).
Proof.
  induction l1 as [|k l1 IH]; intros Hr; simpl.
  - by rewrite decide_True.
  - apply not_elem_of_cons in Hr as [Hne Hr].
    rewrite decide_False by done. by rewrite IH.
Qed.

Lemma insertBefore_null (c : node) kids :
  insertBefore c None kids = Some (kids ++ [c]).
Proof. by destruct kids. Qed.

Lemma nextSibling_split (el : node) l1 l2 :
  el ∉ l1 → nextSibling el (l1 ++ el :: l2) = head l2.
Proof.
  induction l1 as [|k l1 IH]; intros Hr; simpl.
  - by rewrite decide_True.
  - apply not_elem_of_cons in Hr as [Hne Hr].
    rewrite decide_False by done. by apply IH.
Qed.

(** X1.  The constructor puts the freshly created canvas right after the
    image, also when the image is the last child, and leaves the image
    and the other children where they are. *)
Theorem canvas_follows_image (canvas el : node) l1 l2 :
  NoDup (l1 ++ el :: l2) → canvas ∉ l1 ++ el :: l2 →
  insert_canvas canvas el (Some (l1 ++ el :: l2)) =
    Some (l1 ++ el :: canvas :: l2).
Proof.
  intros Hnd _. unfold insert_canvas. simpl.
  apply NoDup_app in Hnd as (_ & Hdis & Hnd2).
  assert (Hel : el ∉ l1).
  { intros Hin. apply (Hdis el Hin). by left. }
  rewrite nextSibling_split by done.
  destruct l2 as [|r l2]; simpl.
  - by rewrite insertBefore_null, <- app_assoc.
  - rewrite (assoc_L _ l1 [el] (r :: l2) :
               l1 ++ el :: r :: l2 = (l1 ++ [el]) ++ r :: l2).
    rewrite insertBefore_head.
    + by rewrite <- app_assoc.
    + rewrite elem_of_app, list_elem_of_singleton.
      apply NoDup_cons in Hnd2 as [Hnr _].
      intros [Hin| ->].
      * apply (Hdis r Hin). right. by left.
      * apply Hnr. by left.
Qed.
End Placement.

(** ** One event at a time *)

Section Cases.
Context {N : Type} `{JsNumber N}.

(** What one event can do to a state that satisfies [Inv]: nothing, or
    one of the nine bodies below. *)
Inductive step_case (s : state N) : event → state N → Prop :=
| case_idle e : step_case s e s
| case_load iw ih :
    img_pending s = true →
    step_case s (ImgLoad iw ih)
      (let s1 := set_canvas (offsetWidth s) (offsetHeight s)
                   (set_imgRatio (Some (num_div (num_of_Z iw) (num_of_Z ih)))
                      (set_img_pending false s)) in
       emit (Bind BEnterBottom) (set_enter_bottom Live
         (emit (Bind BEnterTop) (set_enter_top Live
            (emit (Bind BResize) (set_resize_bound true
               (emit (Render (render_frame s1)) s1)))))))
| case_layout w h :
    img_pending s = true →
    step_case s (WindowResize w h) (set_offset w h s)
| case_resize w h :
    img_pending s = false →
    step_case s (WindowResize w h)
      (set_resizeTimeout (Some (next_timer s))
         (emit (SetTimeout (next_timer s) CbResize 100)
            (set_timers (S (next_timer s))
               (<[next_timer s := Timer (clock s) 100 CbResize]>
                  (match resizeTimeout s with
                   | Some id => delete id (timers s)
                   | None => timers s
                   end))
               (emit (ClearTimeout (resizeTimeout s)) (set_offset w h s)))))
| case_elapse ms : step_case s (Elapse ms) (set_clock (clock s + ms)%nat s)
| case_debounce id t :
    img_pending s = false →
    timers s !! id = Some t → cb t = CbResize → is_due t s = true →
    step_case s (TimerFire id)
      (let s1 := set_pxIndex (length (pxFactorValues (N:=N)) - 1)
                   (set_canvas (offsetWidth s) (offsetHeight s)
                      (set_timers (next_timer s) (delete id (timers s)) s)) in
       emit (Render (render_frame s1)) s1)
| case_advance id t :
    img_pending s = false → enter_top s = Spent →
    timers s !! id = Some t → cb t = CbStep → is_due t s = true →
    (S (pxIndex s) < length (pxFactorValues (N:=N)))%nat →
    step_case s (TimerFire id)
      (let s1 := set_pxIndex (S (pxIndex s))
                   (set_timers (next_timer s) (delete id (timers s)) s) in
       emit (SetTimeout (next_timer s) CbStep 100)
         (set_timers (S (next_timer s))
            (<[next_timer s := Timer (clock s) 100 CbStep]>
               (delete id (timers s)))
            (emit (Render (render_frame s1)) s1)))
| case_finish id t :
    img_pending s = false → enter_top s = Spent →
    timers s !! id = Some t → cb t = CbStep → is_due t s = true →
    S (pxIndex s) = length (pxFactorValues (N:=N)) →
    step_case s (TimerFire id)
      (set_pxIndex (S (pxIndex s))
         (set_timers (next_timer s) (delete id (timers s)) s))
| case_enter_top :
    img_pending s = false → enter_top s = Live →
    step_case s ScrollTop
      (let s1 := set_pxIndex 0 (set_enter_top Spent s) in
       emit (SetTimeout (next_timer s) CbStep 100)
         (set_timers (S (next_timer s))
            (<[next_timer s := Timer (clock s) 100 CbStep]> (timers s))
            (emit (Render (render_frame s1)) s1)))
| case_enter_bottom :
    img_pending s = false → enter_bottom s = Live →
    step_case s ScrollBottom
      (emit (SetOpacity 1) (set_enter_bottom Spent s)).

Lemma step_case_of (s : state N) e : Inv s → step_case s e (step s e).
Proof.
  intros HI. destruct e as [iw ih|w h|ms|id| |].
  - destruct (img_pending s) eqn:Hp.
    + rewrite (step_load s iw ih Hp (inv_inner s HI)). by constructor.
    + unfold step. rewrite Hp. constructor.
  - destruct (img_pending s) eqn:Hp.
    + destruct (inv_before_load s HI Hp) as (_ & _ & Hb & _).
      unfold step. cbn [resize_bound set_offset]. rewrite Hb. by constructor.
    + destruct (inv_after_load s HI Hp) as [_ Hb].
      rewrite (step_resize s w h Hb). by constructor.
  - constructor.
  - unfold step. destruct (timers s !! id) as [t|] eqn:Hl; [|constructor].
    destruct (is_due t s) eqn:Hdue; [|constructor].
    assert (Hp : img_pending s = false).
    { apply Inv_loaded; auto. do 3 right. intros He.
      by rewrite He, lookup_empty in Hl. }
    destruct (cb t) eqn:Hc.
    + by eapply case_debounce.
    + destruct (inv_sequencer s HI id t Hl Hc) as (Het & Hlt & _).
      cbn [run_callback]. unfold animatePixels, setTimeout, render. simpl.
      destruct (S (pxIndex s) <? 5)%nat eqn:Hlt5.
      * apply Nat.ltb_lt in Hlt5. by eapply case_advance.
      * apply Nat.ltb_ge in Hlt5. simpl in Hlt.
        eapply case_finish; eauto. simpl. lia.
  - unfold step. destruct (enter_top s) eqn:Het; try apply case_idle.
    assert (Hp : img_pending s = false)
      by (apply Inv_loaded; auto; right; left; congruence).
    by apply case_enter_top.
  - unfold step. destruct (enter_bottom s) eqn:Heb; try apply case_idle.
    assert (Hp : img_pending s = false)
      by (apply Inv_loaded; auto; right; right; left; congruence).
    by apply case_enter_bottom.
Qed.
End Cases.

Ltac obs :=
  unfold renders, arms, level in *; simpl in *;
  rewrite ?omap_app in *; simpl in *; rewrite ?app_nil_r in *.

(** ** The reveal from start to end *)

Section Reveal.
Context {N : Type} `{JsNumber N}.

Lemma step_fire_seq (s : state N) id t :
  timers s !! id = Some t → cb t = CbStep → is_due t s = true →
  step s (TimerFire id) =
    animatePixels (set_pxIndex (S (pxIndex s))
      (set_timers (next_timer s) (delete id (timers s)) s)).
Proof. intros Hl Hc Hd. unfold step. by rewrite Hl, Hd, Hc. Qed.

(** A sequencer timer left alone with the host runs the sequence to its
    end: one frame per remaining level, in order, on the same surface. *)
Lemma chain_completes ds : ∀ (s : state N) id t,
  Inv s → timers s !! id = Some t → cb t = CbStep →
  next_timer s = S id →
  (pxIndex s + length ds = length (pxFactorValues (N:=N)))%nat →
  Forall (λ d, 100 ≤ d)%nat ds →
  ∃ fs, renders (run s (fire_chain id ds)) = renders s ++ fs ∧
        f_index <$> fs = seq (S (pxIndex s)) (length ds - 1) ∧
        Forall (λ f, f_w f = canvas_width s ∧ f_h f = canvas_height s) fs ∧
        pxIndex (run s (fire_chain id ds)) =
          length (pxFactorValues (N:=N)) ∧
        pending CbStep (run s (fire_chain id ds)) = ∅.
Proof.
  induction ds as [|d ds IH]; intros s id t HI Hl Hc Hn Hlen Hds.
  { destruct (inv_sequencer s HI id t Hl Hc) as (_ & Hlt & _).
    rewrite pxFactorValues_length in *. simpl in Hlen. lia. }
  apply Forall_cons in Hds as [Hd Hds].
  destruct (inv_sequencer s HI id t Hl Hc) as (Het & Hlt & Hu).
  destruct (inv_timer s HI id t Hl) as (_ & Hdel & Harm).
  simpl fire_chain. rewrite !run_cons.
  pose proof (Inv_step s (Elapse d) HI) as HI1.
  set (s1 := step s (Elapse d)) in *.
  assert (Hl1 : timers s1 !! id = Some t) by done.
  assert (Hdue : is_due t s1 = true).
  { unfold is_due, s1. simpl. apply Nat.leb_le. lia. }
  pose proof (Inv_step s1 (TimerFire id) HI1) as HI2.
  rewrite (step_fire_seq s1 id t Hl1 Hc Hdue) in *.
  unfold animatePixels in *. simpl pxIndex in *.
  rewrite pxFactorValues_length in *. simpl length in Hlen.
  destruct ds as [|d' ds].
  - assert (Hk : pxIndex s = 4%nat) by (simpl in Hlen; lia).
    rewrite Hk. simpl. exists []. rewrite app_nil_r. split_and!; try done.
    apply pending_empty. simpl. intros i x Hi Hx.
    apply lookup_delete_Some in Hi as [Hne Hi]. by destruct Hne, (Hu i x).
  - assert (Hk : (S (pxIndex s) <? 5)%nat = true)
      by (apply Nat.ltb_lt; simpl in Hlen; lia).
    rewrite Hk in *.
    match goal with
    | |- context [run ?x _] => set (s2 := x) in *
    end.
    destruct (IH s2 (S id) (Timer (clock s1) 100 CbStep)) as
      (fs & Hfs & Hidx & Hsz & Hpx & Hpe); try done.
    + unfold s2. simpl. rewrite Hn. apply lookup_insert_eq.
    + unfold s2. simpl. by rewrite Hn.
    + unfold s2. simpl. simpl in Hlen. lia.
    + eexists (_ :: fs). split_and!; try done.
      * rewrite Hfs. unfold s2. obs. by rewrite <- app_assoc.
      * rewrite fmap_cons, Hidx. unfold s2. simpl.
        rewrite render_frame_index. simpl.
        by rewrite Nat.sub_0_r.
      * apply Forall_cons. split; [|done].
        by match goal with
           | |- context [render_frame ?x] =>
               destruct (render_frame_size x) as [-> ->]
           end.
Qed.

(** X3.  Once the canvas reaches the top of the viewport and the host fires
    each sequencer timer no earlier than 100 time units after it was
    armed, the reveal runs to its end: one frame per clarity level, from
    the coarsest to the clear one, after which the index is the length
    of the sequence and no sequencer timer is left. *)
Theorem reveal_completes ow oh evs ds :
  enter_top (run (init (N:=N) ow oh) evs) = Live →
  length ds = length (pxFactorValues (N:=N)) →
  Forall (λ d, 100 ≤ d)%nat ds →
  ∃ fs,
    renders (run (run (init (N:=N) ow oh) evs)
               (ScrollTop ::
                fire_chain (next_timer (run (init (N:=N) ow oh) evs)) ds)) =
      renders (run (init (N:=N) ow oh) evs) ++ fs ∧
    f_index <$> fs = seq 0 (length (pxFactorValues (N:=N))) ∧
    Forall (λ f, f_w f = canvas_width (run (init (N:=N) ow oh) evs) ∧
                 f_h f = canvas_height (run (init (N:=N) ow oh) evs)) fs ∧
    pxIndex (run (run (init (N:=N) ow oh) evs)
               (ScrollTop ::
                fire_chain (next_timer (run (init (N:=N) ow oh) evs)) ds)) =
      length (pxFactorValues (N:=N)) ∧
    pending CbStep
      (run (run (init (N:=N) ow oh) evs)
         (ScrollTop ::
          fire_chain (next_timer (run (init (N:=N) ow oh) evs)) ds)) = ∅.
Proof.
  pose proof (Inv_run ow oh evs) as HI.
  set (s := run (init ow oh) evs) in *. clearbody s.
  intros Het Hlen Hds. rewrite run_cons.
  pose proof (Inv_step s ScrollTop HI) as HI1.
  assert (Hs1 : step s ScrollTop =
                animatePixels (set_pxIndex 0 (set_enter_top Spent s))).
  { unfold step. by rewrite Het. }
  rewrite Hs1 in *. unfold animatePixels in *. simpl in HI1 |- *.
  match goal with
  | |- context [run ?x _] => set (s1 := x) in *
  end.
  destruct (chain_completes ds s1 (next_timer s)
              (Timer (clock s) 100 CbStep)) as
    (fs & Hfs & Hidx & Hsz & Hpx & Hpe); try done.
  - unfold s1. simpl. apply lookup_insert_eq.
  - eexists (_ :: fs). split_and!; try done.
    + rewrite Hfs. unfold s1. obs. by rewrite <- app_assoc.
    + rewrite fmap_cons, Hidx. unfold s1. simpl.
      rewrite render_frame_index. simpl.
      rewrite pxFactorValues_length in Hlen. by rewrite Hlen.
    + apply Forall_cons. split; [|done].
        by match goal with
           | |- context [render_frame ?x] =>
               destruct (render_frame_size x) as [-> ->]
           end.
Qed.
End Reveal.

(** ** Clarity over a whole run *)

Section Clarity.
Context {N : Type} `{JsNumber N}.

(** After the top trigger has fired, an event draws at most one frame,
    from the level of the state it leads to, and the level does not go
    down. *)
Lemma spent_step (s : state N) e :
  Inv s → enter_top s = Spent →
  enter_top (step s e) = Spent ∧
  (level s ≤ level (step s e))%nat ∧
  (renders (step s e) = renders s ∧ level (step s e) = level s ∨
   ∃ f, renders (step s e) = renders s ++ [f] ∧ f_index f = level (step s e)).
Proof.
  intros HI Het. pose proof (step_case_of s e HI) as Hc.
  set (s' := step s e) in *. clearbody s'.
  pose proof (inv_index s HI) as Hidx. simpl in Hidx.
  destruct Hc; cbv zeta.
  - split_and!; [done|done|by left].
  - destruct (inv_before_load s HI) as (_ & _ & _ & ? & _); [done|congruence].
  - split_and!; [done|done|by left].
  - split_and!; [done|done|left]. by obs.
  - split_and!; [done|done|by left].
  - split_and!; [done| |right].
    + obs. lia.
    + eexists. split; [by obs|]. rewrite render_frame_index. by obs.
  - split_and!; [done| |right].
    + obs. lia.
    + eexists. split; [by obs|]. rewrite render_frame_index. obs. lia.
  - split_and!; [done| |left].
    + obs. lia.
    + obs. split; [done|lia].
  - congruence.
  - split_and!; [done|done|left]. by obs.
Qed.

(** Once the top trigger has fired, the latest frame comes from the
    current level. *)
Lemma last_frame_level ow oh evs :
  enter_top (run (init (N:=N) ow oh) evs) = Spent →
  ∃ f, last (renders (run (init (N:=N) ow oh) evs)) = Some f ∧
       f_index f = level (run (init (N:=N) ow oh) evs).
Proof.
  induction evs as [|e evs IH] using rev_ind; [done|].
  rewrite run_snoc. pose proof (Inv_run (N:=N) ow oh evs) as HI.
  set (s := run (init ow oh) evs) in *. intros Het'.
  destruct (enter_top s) eqn:Het.
  3:{ destruct (spent_step s e HI Het) as (_ & _ & [[Hr Hl]|(f & Hr & Hf)]).
      - rewrite Hr, Hl. by apply IH.
      - exists f. by rewrite Hr, last_snoc. }
  all: pose proof (step_case_of s e HI) as Hc;
    set (s' := step s e) in *; clearbody s';
    destruct Hc; cbv zeta in *; try (simpl in Het'; congruence);
    (eexists; split; [obs; by rewrite last_snoc|];
     rewrite render_frame_index; by obs).
Qed.

(** X4.  From the moment the top trigger has fired, clarity never regresses:
    the frames drawn afterwards, by the sequencer or by the resize path
    in any interleaving, come from indices that do not decrease, starting
    at or above the index of the latest frame drawn before. *)
Theorem clarity_never_regresses ow oh evs1 evs2 :
  enter_top (run (init (N:=N) ow oh) evs1) = Spent →
  ∃ fs,
    renders (run (run (init (N:=N) ow oh) evs1) evs2) =
      renders (run (init (N:=N) ow oh) evs1) ++ fs ∧
    (∀ i j f g, (i ≤ j)%nat → fs !! i = Some f → fs !! j = Some g →
                (f_index f ≤ f_index g)%nat) ∧
    (∀ g f, last (renders (run (init (N:=N) ow oh) evs1)) = Some g →
            f ∈ fs → (f_index g ≤ f_index f)%nat).
Proof.
  intros Het. pose proof (Inv_run (N:=N) ow oh evs1) as HI.
  destruct (last_frame_level ow oh evs1 Het) as (g0 & Hg0 & Hlev0).
  set (s1 := run (init ow oh) evs1) in *.
  assert (Hgen : ∃ fs,
    renders (run s1 evs2) = renders s1 ++ fs ∧
    enter_top (run s1 evs2) = Spent ∧
    (level s1 ≤ level (run s1 evs2))%nat ∧
    (∀ f, f ∈ fs → (level s1 ≤ f_index f ≤ level (run s1 evs2))%nat) ∧
    (∀ i j f g, (i ≤ j)%nat → fs !! i = Some f → fs !! j = Some g →
                (f_index f ≤ f_index g)%nat)).
  { induction evs2 as [|e evs2 IH] using rev_ind.
    - exists []. rewrite app_nil_r. split_and!; try done; try (simpl; lia).
      intros f Hf. by apply elem_of_nil in Hf.
    - destruct IH as (fs & Hr & Het2 & Hlev & Hin & Hsorted).
      rewrite run_snoc. set (s2 := run s1 evs2) in *.
      destruct (spent_step s2 e (Inv_run_from s1 evs2 HI) Het2)
        as (Het3 & Hlev3 & [[Hr3 Hl3]|(f & Hr3 & Hf)]).
      + exists fs. rewrite Hr3, Hr. split_and!; try done; [lia|].
        intros f Hf. specialize (Hin f Hf). lia.
      + exists (fs ++ [f]). rewrite Hr3, Hr, app_assoc.
        split_and!; try done; [lia| |].
        * intros f' Hf'. apply elem_of_app in Hf' as [Hf'|Hf'].
          -- specialize (Hin f' Hf'). lia.
          -- apply list_elem_of_singleton in Hf' as ->. lia.
        * intros i j f1 f2 Hij H1 H2.
          apply lookup_app_Some in H2 as [H2|[Hj H2]].
          -- apply lookup_app_Some in H1 as [H1|[Hi H1]].
             ++ by eapply Hsorted.
             ++ apply lookup_lt_Some in H2. lia.
          -- apply list_lookup_singleton_Some in H2 as [_ <-].
             apply lookup_app_Some in H1 as [H1|[Hi H1]].
             ++ apply list_elem_of_lookup_2 in H1. specialize (Hin f1 H1). lia.
             ++ apply list_lookup_singleton_Some in H1 as [_ <-]. lia. }
  destruct Hgen as (fs & Hr & _ & _ & Hin & Hsorted).
  exists fs. split_and!; try done.
  intros g f Hg Hf. rewrite Hg0 in Hg. injection Hg as <-.
  specialize (Hin f Hf). lia.
Qed.
End Clarity.

(** ** Timers and frames a run can have *)

Section Timers.
Context {N : Type} `{JsNumber N}.

Lemma pending_size_le_1 c (s : state N) :
  (∀ id t id' t', timers s !! id = Some t → cb t = c →
                  timers s !! id' = Some t' → cb t' = c → id' = id) →
  (size (pending c s) ≤ 1)%nat.
Proof.
  intros Hu. destruct (map_choose_or_empty (pending c s)) as [(id & t & Hl)|He].
  - apply pending_lookup in Hl as [Hl Hc].
    rewrite (pending_singleton c s id t Hl Hc), map_size_singleton; [lia|].
    intros id' t' Hl' Hc'. by eapply Hu.
  - rewrite He, map_size_empty. lia.
Qed.

Lemma timers_split (s : state N) :
  size (timers s) = (size (pending CbResize s) + size (pending CbStep s))%nat.
Proof.
  unfold pending.
  rewrite <- (map_filter_union_complement (λ kt : nat * timer, cb kt.2 = CbResize)
                (timers s)) at 1.
  rewrite map_size_disj_union by apply map_disjoint_filter_complement.
  f_equal. f_equal. apply map_filter_ext. intros i x _. simpl.
  destruct (cb x); split; congruence.
Qed.

(** X5.  The object never has more than two timers in flight: at most one
    debounce timer and at most one sequencer timer. *)
Theorem at_most_two_timers ow oh evs :
  (size (pending CbResize (run (init (N:=N) ow oh) evs)) ≤ 1)%nat ∧
  (size (pending CbStep (run (init (N:=N) ow oh) evs)) ≤ 1)%nat ∧
  (size (timers (run (init (N:=N) ow oh) evs)) ≤ 2)%nat.
Proof.
  pose proof (Inv_run (N:=N) ow oh evs) as HI.
  set (s := run (init ow oh) evs) in *.
  assert (H1 : (size (pending CbResize s) ≤ 1)%nat).
  { apply pending_size_le_1. intros id t id' t' Hl Hc Hl' Hc'.
    pose proof (inv_debounce s HI id t Hl Hc).
    pose proof (inv_debounce s HI id' t' Hl' Hc'). congruence. }
  assert (H2 : (size (pending CbStep s) ≤ 1)%nat).
  { apply pending_size_le_1. intros id t id' t' Hl Hc Hl' Hc'.
    destruct (inv_sequencer s HI id t Hl Hc) as (_ & _ & Hu). by eapply Hu. }
  split_and!; try done. rewrite timers_split. lia.
Qed.
End Timers.

Section Budget.
Context {N : Type} `{JsNumber N}.

(** How many timers and frames a state can have behind it. *)
Record Budget (s : state N) : Prop := {
  bud_idle : enter_top s ≠ Spent → arms CbStep s = [];
  bud_running :
    ∀ id t, timers s !! id = Some t → cb t = CbStep →
      (length (arms CbStep s) ≤ pxIndex s + 1)%nat;
  bud_steps : (length (arms CbStep s) ≤ length (pxFactorValues (N:=N)))%nat;
  bud_frames :
    (length (renders s) ≤
       1 + length (arms CbStep s) + length (arms CbResize s))%nat;
  bud_debounce :
    ∀ id t, timers s !! id = Some t → cb t = CbResize →
      (length (renders s) + 1 ≤
         1 + length (arms CbStep s) + length (arms CbResize s))%nat;
}.

Lemma Budget_step (s : state N) e : Inv s → Budget s → Budget (step s e).
Proof.
  intros HI HB. pose proof (step_case_of s e HI) as Hc.
  set (s' := step s e) in *. clearbody s'.
  destruct HB as [Hidle Hrun Hsteps Hframes Hdeb].
  destruct Hc; cbv zeta.
  - by split.
  - destruct (inv_before_load s HI) as (Ht & He & _); [done|].
    split; obs; rewrite ?He; simpl; try lia; try done.
    all: intros id t Hl; by rewrite Ht, lookup_empty in Hl.
  - by split.
  - split; obs; rewrite ?length_app; simpl; try done.
    + intros id t Hl Hc. split_lookup.
      destruct (resizeTimeout s); split_lookup; by eapply Hrun.
    + lia.
    + intros. lia.
  - by split.
  - pose proof (Hdeb id t ltac:(done) ltac:(done)).
    split; obs; rewrite ?length_app; simpl; try done; try lia.
    intros i x Hl Hc. split_lookup.
    pose proof (inv_debounce s HI id t).
    pose proof (inv_debounce s HI i x). naive_solver.
  - pose proof (Hrun id t ltac:(done) ltac:(done)).
    split; obs; rewrite ?length_app; simpl; try done; try lia.
    intros i x Hl Hc. split_lookup.
    pose proof (Hdeb i x ltac:(done) ltac:(done)). lia.
  - split; obs; rewrite ?length_app; simpl; try done; try lia.
    intros i x Hl Hc. split_lookup. by eapply Hdeb.
  - rewrite Hidle in * by congruence.
    split; obs; rewrite ?length_app; simpl; try done; try lia.
    all: rewrite ?Hidle by congruence; simpl; try lia.
    intros i x Hl Hc. split_lookup.
    pose proof (Hdeb i x ltac:(done) ltac:(done)). lia.
  - split; obs; rewrite ?length_app; simpl; try done.
Qed.

Lemma Budget_init ow oh : Budget (init (N:=N) ow oh).
Proof. split; simpl; try done; lia. Qed.

Lemma Budget_run ow oh evs : Budget (run (init (N:=N) ow oh) evs).
Proof.
  induction evs as [|e evs IH] using rev_ind; [apply Budget_init|].
  rewrite run_snoc. apply Budget_step; [apply Inv_run|done].
Qed.

Lemma resize_arms_step (s : state N) e :
  Inv s →
  (length (arms CbResize (step s e)) ≤
     length (arms CbResize s) + resize_events [e])%nat.
Proof.
  intros HI. pose proof (step_case_of s e HI) as Hc.
  set (s' := step s e) in *. clearbody s'.
  destruct Hc; cbv zeta; unfold resize_events; obs;
    rewrite ?length_app; simpl; lia.
Qed.

Lemma resize_arms_run ow oh evs :
  (length (arms CbResize (run (init (N:=N) ow oh) evs)) ≤
     resize_events evs)%nat.
Proof.
  induction evs as [|e evs IH] using rev_ind; [simpl; lia|].
  rewrite run_snoc.
  pose proof (resize_arms_step (run (init ow oh) evs) e (Inv_run _ _ _)).
  unfold resize_events in *. rewrite omap_app, length_app. lia.
Qed.

(** X6.  The whole run arms at most one sequencer timer per clarity level,
    and draws at most one frame on load, one per sequencer timer and one
    per resize event. *)
Theorem frame_budget ow oh evs :
  (length (arms CbStep (run (init (N:=N) ow oh) evs)) ≤
     length (pxFactorValues (N:=N)))%nat ∧
  (length (renders (run (init (N:=N) ow oh) evs)) ≤
     1 + length (pxFactorValues (N:=N)) + resize_events evs)%nat.
Proof.
  pose proof (Budget_run ow oh evs) as HB.
  pose proof (resize_arms_run ow oh evs).
  pose proof (bud_steps _ HB). pose proof (bud_frames _ HB).
  split; lia.
Qed.
End Budget.

(** ** The drawing buffer, the wrapper and the ratio *)

Section Surface.
Context {N : Type} `{JsNumber N}.

(** The drawing buffer against the frames and the wrapper. *)
Record Surface (s : state N) : Prop := {
  sur_drawn :
    img_pending s = false →
    ∃ f, last (renders s) = Some f ∧
         f_w f = canvas_width s ∧ f_h f = canvas_height s;
  sur_ratio : ∀ f, f ∈ renders s → f_ratio f = imgRatio s;
  sur_layout :
    img_pending s = false → pending CbResize s = ∅ →
    canvas_width s = offsetWidth s ∧ canvas_height s = offsetHeight s;
}.

Lemma Surface_step (s : state N) e : Inv s → Surface s → Surface (step s e).
Proof.
  intros HI [Hd Hr Hl]. pose proof (step_case_of s e HI) as Hc.
  set (s' := step s e) in *. clearbody s'.
  destruct Hc; cbv zeta.
  - by split.
  - destruct (inv_before_load s HI) as (Ht & He & _); [done|].
    split; obs; rewrite ?He; simpl.
    + intros _. eexists. split; [done|]. by match goal with
         | |- context [render_frame ?x] =>
             destruct (render_frame_size x) as [-> ->]
         end.
    + intros f ->%list_elem_of_singleton. by rewrite render_frame_ratio.
    + done.
  - split; simpl; try done; congruence.
  - split; obs; try done.
    intros _ He. exfalso. rewrite pending_empty in He.
    eapply (He (next_timer s)); [apply lookup_insert_eq|done].
  - by split.
  - split; obs.
    + intros _. eexists. rewrite last_snoc. split; [done|].
      by match goal with
         | |- context [render_frame ?x] =>
             destruct (render_frame_size x) as [-> ->]
         end.
    + intros f [?| ->%list_elem_of_singleton]%elem_of_app; [by apply Hr|].
      by rewrite render_frame_ratio.
    + done.
  - split; obs.
    + intros _. eexists. rewrite last_snoc. split; [done|].
      by match goal with
         | |- context [render_frame ?x] =>
             destruct (render_frame_size x) as [-> ->]
         end.
    + intros f [?| ->%list_elem_of_singleton]%elem_of_app; [by apply Hr|].
      by rewrite render_frame_ratio.
    + intros Hp He. apply Hl; [done|]. rewrite pending_empty in *.
      intros i x Hi Hx. apply (He i x); [simpl|done].
      destruct (decide (i = next_timer s)) as [->|].
      { destruct (inv_timer s HI _ _ Hi). lia. }
      rewrite lookup_insert_ne by done.
      apply lookup_delete_Some. split; [|done]. intros <-. congruence.
  - split; obs; try done.
    intros Hp He. apply Hl; [done|]. rewrite pending_empty in *.
    intros i x Hi Hx. apply (He i x); [simpl|done].
    apply lookup_delete_Some. split; [|done]. intros <-. congruence.
  - split; obs.
    + intros _. eexists. rewrite last_snoc. split; [done|].
      by match goal with
         | |- context [render_frame ?x] =>
             destruct (render_frame_size x) as [-> ->]
         end.
    + intros f [?| ->%list_elem_of_singleton]%elem_of_app; [by apply Hr|].
      by rewrite render_frame_ratio.
    + intros Hp He. apply Hl; [done|]. rewrite pending_empty in *.
      intros i x Hi Hx. apply (He i x); [simpl|done].
      destruct (decide (i = next_timer s)) as [->|].
      { destruct (inv_timer s HI _ _ Hi). lia. }
      by rewrite lookup_insert_ne.
  - split; obs; try done.
Qed.

Lemma Surface_init ow oh : Surface (init (N:=N) ow oh).
Proof. split; simpl; try done. intros f Hf. inversion Hf. Qed.

Lemma Surface_run (s : state N) evs :
  Inv s → Surface s → Surface (run s evs).
Proof.
  intros HI HS. induction evs as [|e evs IH] using rev_ind; [done|].
  rewrite run_snoc. apply Surface_step; [by apply Inv_run_from|done].
Qed.

(** X7.  Once the image is loaded, the drawing buffer always holds a frame
    drawn at its current size: whenever [setCanvasSize] has changed (and
    so cleared) the canvas, [render] has followed.  The buffer has the
    size of the wrapper unless a debounce timer is pending. *)
Theorem canvas_tracks_wrapper ow oh evs :
  img_pending (run (init (N:=N) ow oh) evs) = false →
  (∃ f, last (renders (run (init (N:=N) ow oh) evs)) = Some f ∧
        f_w f = canvas_width (run (init (N:=N) ow oh) evs) ∧
        f_h f = canvas_height (run (init (N:=N) ow oh) evs)) ∧
  (pending CbResize (run (init (N:=N) ow oh) evs) = ∅ →
   canvas_width (run (init (N:=N) ow oh) evs) =
     offsetWidth (run (init (N:=N) ow oh) evs) ∧
   canvas_height (run (init (N:=N) ow oh) evs) =
     offsetHeight (run (init (N:=N) ow oh) evs)).
Proof.
  intros Hp.
  destruct (Surface_run (init ow oh) evs (Inv_init _ _) (Surface_init _ _))
    as [Hd _ Hl].
  split; [by apply Hd|]. by apply Hl.
Qed.

Lemma ratio_kept (s : state N) e :
  img_pending s = false → imgRatio (step s e) = imgRatio s ∧
                          img_pending (step s e) = false.
Proof.
  intros Hp. destruct e; simpl; rewrite ?Hp; try done.
  - destruct (resize_bound s); [|done].
    unfold on_resize, clearTimeout. simpl. by destruct (resizeTimeout s).
  - destruct (timers s !! id) as [t|]; [|done].
    destruct (is_due t s); [|done]. destruct (cb t); simpl; [done|].
    unfold animatePixels. simpl. by destruct (_ <? _)%nat.
  - destruct (enter_top s); try done.
  - by destruct (enter_bottom s).
Qed.

Lemma ratio_kept_run (s : state N) evs :
  img_pending s = false → imgRatio (run s evs) = imgRatio s ∧
                          img_pending (run s evs) = false.
Proof.
  intros Hp. induction evs as [|e evs [IH1 IH2]] using rev_ind; [done|].
  rewrite run_snoc. destruct (ratio_kept (run s evs) e IH2) as [-> ?].
  by rewrite IH1.
Qed.

Lemma frames_ratio ow oh evs1 evs2 f :
  img_pending (run (init (N:=N) ow oh) evs1) = false →
  f ∈ renders (run (init (N:=N) ow oh) (evs1 ++ evs2)) →
  f_ratio f = imgRatio (run (init (N:=N) ow oh) evs1).
Proof.
  intros Hp Hf.
  destruct (Surface_run (init ow oh) (evs1 ++ evs2)
              (Inv_init _ _) (Surface_init _ _)) as [_ Hr _].
  rewrite (Hr f Hf), run_app. by apply ratio_kept_run.
Qed.

(** X8.  In a run with one load event the aspect ratio is the quotient
    computed by the load callback: no other event assigns [imgRatio], so
    every frame of the run is drawn with that ratio. *)
Theorem ratio_fixed_at_load ow oh evs iw ih evs2 f :
  (∀ iw' ih', ImgLoad iw' ih' ∉ evs) →
  (∀ iw' ih', ImgLoad iw' ih' ∉ evs2) →
  f ∈ renders (run (init (N:=N) ow oh) (evs ++ ImgLoad iw ih :: evs2)) →
  f_ratio f = Some (num_div (num_of_Z iw) (num_of_Z ih)) ∧
  imgRatio (run (init (N:=N) ow oh) (evs ++ ImgLoad iw ih :: evs2)) =
    Some (num_div (num_of_Z iw) (num_of_Z ih)).
Proof.
  intros Hno _ Hf.
  pose proof (pending_until_load ow oh evs Hno) as Hp.
  pose proof (Inv_run (N:=N) ow oh evs) as HI.
  assert (Hs : run (init ow oh) (evs ++ [ImgLoad iw ih]) =
               step (run (init ow oh) evs) (ImgLoad iw ih))
    by apply run_snoc.
  assert (Hp1 : img_pending (run (init (N:=N) ow oh) (evs ++ [ImgLoad iw ih])) =
                false).
  { rewrite Hs, step_load by (done || apply (inv_inner _ HI)). done. }
  assert (Hq1 : imgRatio (run (init (N:=N) ow oh) (evs ++ [ImgLoad iw ih])) =
                Some (num_div (num_of_Z iw) (num_of_Z ih))).
  { rewrite Hs, step_load by (done || apply (inv_inner _ HI)). done. }
  replace (evs ++ ImgLoad iw ih :: evs2) with ((evs ++ [ImgLoad iw ih]) ++ evs2)
    in * by (by rewrite <- app_assoc).
  split.
  - by rewrite (frames_ratio ow oh (evs ++ [ImgLoad iw ih]) evs2 f Hp1 Hf).
  - rewrite run_app.
    by destruct (ratio_kept_run _ evs2 Hp1) as [-> _].
Qed.
End Surface.

Section Frames.
Context {N : Type} `{JsNumber N}.

(** Every logged frame is what [render] computes from the surface, the
    ratio and the index it was drawn with. *)
Lemma frames_rendered ow oh evs f :
  f ∈ renders (run (init (N:=N) ow oh) evs) →
  ∃ s, f = render_frame s ∧ canvas_width s = f_w f ∧
       canvas_height s = f_h f ∧ imgRatio s = f_ratio f ∧
       pxIndex s = f_index f.
Proof.
  assert (Hmk : ∀ s : state N,
            ∃ s0, render_frame s = render_frame s0 ∧
                  canvas_width s0 = f_w (render_frame s) ∧
                  canvas_height s0 = f_h (render_frame s) ∧
                  imgRatio s0 = f_ratio (render_frame s) ∧
                  pxIndex s0 = f_index (render_frame s)).
  { intros s. exists s.
    rewrite render_frame_ratio, render_frame_index.
    by destruct (render_frame_size s) as [-> ->]. }
  induction evs as [|e evs IH] using rev_ind; [intros Hf; inversion Hf|].
  rewrite run_snoc.
  pose proof (step_case_of _ e (Inv_run ow oh evs)) as Hc.
  set (s := run (init ow oh) evs) in *. clearbody s.
  set (s' := step s e) in *. clearbody s'.
  destruct Hc; cbv zeta; obs; try done.
  all: intros [?| ->%list_elem_of_singleton]%elem_of_app; auto.
Qed.
End Frames.

Section Degenerate.
Import Binary64.

Lemma no_ratio : SFdiv prec emax (of_Z 0) (of_Z 0) = S754_nan.
Proof. reflexivity. Qed.

Lemma target_rect_nan (w h : Z) :
  target_rect (N:=spec_float) w h (Some S754_nan) =
    (Some S754_nan, Some (of_Z 0), Some S754_nan, Some (of_Z h)).
Proof.
  unfold target_rect. simpl.
  replace (SFltb S754_nan (SFdiv prec emax (of_Z w) (of_Z h))) with false
    by (by destruct (SFdiv _ _ _ _)).
  replace (SFmul prec emax (of_Z h) S754_nan) with S754_nan
    by (by destruct (of_Z h)).
  simpl.
  replace (SFsub prec emax (of_Z w) S754_nan) with S754_nan
    by (by destruct (of_Z w)).
  done.
Qed.

(** X9.  An image without intrinsic size (0 by 0) gives the ratio 0/0: every
    frame of the run, on every surface, has a NaN target width and a NaN
    horizontal offset; the height is the surface's. *)
Theorem degenerate_image ow oh evs f :
  f ∈ renders (run (init (N:=spec_float) ow oh) (ImgLoad 0 0 :: evs)) →
  f_ratio f = Some S754_nan ∧
  f_newWidth f = Some S754_nan ∧ f_newX f = Some S754_nan ∧
  f_newHeight f = Some (of_Z (f_h f)) ∧ f_newY f = Some (of_Z 0).
Proof.
  intros Hf.
  assert (Hr : f_ratio f = Some S754_nan).
  { by rewrite (frames_ratio ow oh [ImgLoad 0 0] evs f). }
  split; [done|].
  destruct (frames_rendered _ _ _ _ Hf) as (s & -> & Hw & Hh & Hq & _).
  rewrite Hr in Hq. rewrite <- Hh.
  unfold render_frame. rewrite Hq, target_rect_nan. done.
Qed.
End Degenerate.

(** ** The reduced size *)

Section Sampling.
Lemma all_below_spec n p z :
  all_below n p = true → 0 <= z < Z.of_nat n → p z = true.
Proof.
  induction n as [|n IH]; simpl; [lia|].
  intros [Hp Hn]%andb_prop Hz.
  destruct (decide (z = Z.of_nat n)) as [->|]; [done|]. apply IH; [done|lia].
Qed.

Lemma sf_eqb_eq x y : sf_eqb x y = true → x = y.
Proof.
  destruct x, y; simpl; try done.
  - by intros ->%eqb_prop.
  - intros [[->%eqb_prop ->%Pos.eqb_eq]%andb_prop ->%Z.eqb_eq]%andb_prop.
    done.
Qed.

Lemma floor_agrees_4096 :
  all_below 4096
    (floor_agrees (zip (pxFactorValues (N:=spec_float)) [2; 4; 6; 9; 100])) =
  true.
Proof. vm_compute. reflexivity. Qed.

Lemma floor_binary64 (w : Z) (i : nat) :
  0 <= w < 4096 →
  Math_floor (js_mul (Some (num_of_Z w)) (pxFactorValues (N:=spec_float) !! i)) =
    (λ c, Binary64.of_Z (w * c / 100)) <$> ([2; 4; 6; 9; 100] : list Z) !! i.
Proof.
  intros Hw.
  pose proof (all_below_spec _ _ w floor_agrees_4096 Hw) as Ha.
  unfold floor_agrees in Ha. rewrite forallb_forall in Ha.
  unfold pxFactorValues in *. cbn [zip zip_with] in Ha.
  destruct i as [|[|[|[|[|i]]]]]; [..|done].
  all: cbn [lookup list_lookup fmap option_fmap option_map
            Math_floor js_mul js_lift2]; f_equal.
  all: apply sf_eqb_eq, (Ha (_, _)); cbn [In]; tauto.
Qed.

(** X11.  In binary64 and on a surface below 4096 by 4096, the reduced size
    is the integer quotient of the surface size times the scale in
    hundredths: the rounding of the literals .02 to 0.09 and of the
    product never moves the floor. *)
Theorem sample_size_binary64 (s : state spec_float) :
  0 <= canvas_width s < 4096 → 0 <= canvas_height s < 4096 →
  f_scaledW (render_frame s) =
    (λ c, Binary64.of_Z (canvas_width s * c / 100)) <$>
      ([2; 4; 6; 9; 100] : list Z) !! pxIndex s ∧
  f_scaledH (render_frame s) =
    (λ c, Binary64.of_Z (canvas_height s * c / 100)) <$>
      ([2; 4; 6; 9; 100] : list Z) !! pxIndex s.
Proof.
  intros Hw Hh. unfold render_frame.
  destruct (target_rect _ _ _) as [[[? ?] ?] ?]. cbn [f_scaledW f_scaledH].
  by rewrite !floor_binary64.
Qed.

(** X12.  At the coarsest level a surface narrower than 50 columns is sampled
    into no column at all, and only such a surface is. *)
Theorem coarsest_frame_empty_below_50 (s : state spec_float) :
  pxIndex s = 0%nat → 0 <= canvas_width s < 4096 →
  f_scaledW (render_frame s) = Some (S754_zero false) ↔ canvas_width s < 50.
Proof.
  intros Hi Hw. unfold render_frame.
  destruct (target_rect _ _ _) as [[[? ?] ?] ?]. cbn [f_scaledW].
  rewrite floor_binary64, Hi by done. simpl.
  destruct (decide (canvas_width s < 50)) as [Hlt|Hge].
  - replace (canvas_width s * 2 / 100) with 0
      by (symmetry; apply Z.div_small; lia).
    done.
  - split; [|done]. intros Hz. exfalso.
    assert (Hq : 1 <= canvas_width s * 2 / 100 < 2 ^ 53).
    { split; [apply Z.div_le_lower_bound; lia|].
      apply Z.div_lt_upper_bound; lia. }
    destruct (canvas_width s * 2 / 100) as [|p|p] eqn:Hp; [lia| |lia].
    destruct (of_Z_pos p) as (m & e & He & _); [lia|].
    congruence.
Qed.

End Sampling.

(** ** Concrete runs of the above *)

Lemma clarity_never_regresses_witness :
  enter_top (run (init (N:=spec_float) 400 200) [ImgLoad 800 400; ScrollTop]) =
    Spent ∧
  ∃ fs,
    renders (run (run (init (N:=spec_float) 400 200)
                    [ImgLoad 800 400; ScrollTop])
               [WindowResize 500 250; Elapse 100; TimerFire 1; TimerFire 0]) =
      renders (run (init (N:=spec_float) 400 200)
                 [ImgLoad 800 400; ScrollTop]) ++ fs ∧
    (∀ i j f g, (i ≤ j)%nat → fs !! i = Some f → fs !! j = Some g →
                (f_index f ≤ f_index g)%nat) ∧
    (∀ g f, last (renders (run (init (N:=spec_float) 400 200)
                             [ImgLoad 800 400; ScrollTop])) = Some g →
            f ∈ fs → (f_index g ≤ f_index f)%nat).
Proof.
  pose proof (clarity_never_regresses (N:=spec_float) 400 200
                [ImgLoad 800 400; ScrollTop]
                [WindowResize 500 250; Elapse 100; TimerFire 1; TimerFire 0])
    as Hthm.
  assert (H1 : enter_top (run (init (N:=spec_float) 400 200)
                            [ImgLoad 800 400; ScrollTop]) = Spent)
    by (vm_compute; reflexivity).
  split; [exact H1|exact (Hthm H1)].
Defined.

Lemma canvas_tracks_wrapper_witness :
  img_pending (run (init (N:=spec_float) 300 300) square_trace) = false ∧
  pending CbResize (run (init (N:=spec_float) 300 300) square_trace) = ∅ ∧
  (∃ f, last (renders (run (init (N:=spec_float) 300 300) square_trace)) =
          Some f ∧
        f_w f = canvas_width (run (init (N:=spec_float) 300 300) square_trace) ∧
        f_h f = canvas_height (run (init (N:=spec_float) 300 300) square_trace)) ∧
  canvas_width (run (init (N:=spec_float) 300 300) square_trace) =
    offsetWidth (run (init (N:=spec_float) 300 300) square_trace) ∧
  canvas_height (run (init (N:=spec_float) 300 300) square_trace) =
    offsetHeight (run (init (N:=spec_float) 300 300) square_trace).
Proof.
  pose proof (canvas_tracks_wrapper (N:=spec_float) 300 300 square_trace)
    as Hthm.
  assert (H1 : img_pending (run (init (N:=spec_float) 300 300) square_trace) =
               false) by (vm_compute; reflexivity).
  assert (H2 : pending CbResize
                 (run (init (N:=spec_float) 300 300) square_trace) = ∅)
    by (vm_compute; reflexivity).
  destruct (Hthm H1) as [Hd Hl]. destruct (Hl H2) as [Hw Hh].
  split_and!; assumption.
Defined.

Lemma ratio_fixed_at_load_witness :
  (∀ iw ih, ImgLoad iw ih ∉ [WindowResize 400 200]) ∧
  (∀ iw ih, ImgLoad iw ih ∉ [ScrollTop; WindowResize 500 250]) ∧
  renders (run (init (N:=spec_float) 640 480)
             ([WindowResize 400 200] ++ ImgLoad 800 400 ::
              [ScrollTop; WindowResize 500 250])) !! 1%nat =
    Some (render_frame loaded) ∧
  f_ratio (render_frame loaded) =
    Some (num_div (num_of_Z 800) (num_of_Z 400)).
Proof.
  assert (H1 : ∀ iw ih, ImgLoad iw ih ∉ [WindowResize 400 200]).
  { intros iw ih Hin.
    repeat (apply elem_of_cons in Hin as [Hin|Hin]; [discriminate|]).
    by apply elem_of_nil in Hin. }
  assert (H2 : ∀ iw ih, ImgLoad iw ih ∉ [ScrollTop; WindowResize 500 250]).
  { intros iw ih Hin.
    repeat (apply elem_of_cons in Hin as [Hin|Hin]; [discriminate|]).
    by apply elem_of_nil in Hin. }
  assert (H3 : renders (run (init (N:=spec_float) 640 480)
                          ([WindowResize 400 200] ++ ImgLoad 800 400 ::
                           [ScrollTop; WindowResize 500 250])) !! 1%nat =
               Some (render_frame loaded)) by (vm_compute; reflexivity).
  destruct (ratio_fixed_at_load (N:=spec_float) 640 480 [WindowResize 400 200]
              800 400 [ScrollTop; WindowResize 500 250] (render_frame loaded)
              H1 H2 (list_elem_of_lookup_2 _ _ _ H3)) as [Hr _].
  split_and!; [exact H1|exact H2|exact H3|exact Hr].
Defined.

Lemma degenerate_image_witness :
  renders (run (init (N:=spec_float) 400 200) [ImgLoad 0 0; ScrollTop])
    !! 1%nat =
    Some (render_frame (step (init (N:=spec_float) 400 200) (ImgLoad 0 0))) ∧
  f_newWidth (render_frame (step (init (N:=spec_float) 400 200) (ImgLoad 0 0))) =
    Some S754_nan ∧
  f_newX (render_frame (step (init (N:=spec_float) 400 200) (ImgLoad 0 0))) =
    Some S754_nan.
Proof.
  pose proof (degenerate_image 400 200 [ScrollTop]
                (render_frame (step (init (N:=spec_float) 400 200)
                                 (ImgLoad 0 0)))) as Hthm.
  assert (H1 : renders (run (init (N:=spec_float) 400 200)
                          [ImgLoad 0 0; ScrollTop]) !! 1%nat =
               Some (render_frame (step (init (N:=spec_float) 400 200)
                                     (ImgLoad 0 0))))
    by (vm_compute; reflexivity).
  destruct (Hthm (list_elem_of_lookup_2 _ _ _ H1)) as (_ & Hw & Hx & _).
  split_and!; assumption.
Defined.

Lemma reveal_completes_witness :
  enter_top (run (init (N:=spec_float) 400 200) [ImgLoad 800 400]) = Live ∧
  ∃ fs,
    renders (run (run (init (N:=spec_float) 400 200) [ImgLoad 800 400])
               (ScrollTop ::
                fire_chain (next_timer (run (init (N:=spec_float) 400 200)
                                          [ImgLoad 800 400]))
                  [100; 250; 100; 120; 100]%nat)) =
      renders (run (init (N:=spec_float) 400 200) [ImgLoad 800 400]) ++ fs ∧
    f_index <$> fs = seq 0 (length (pxFactorValues (N:=spec_float))).
Proof.
  pose proof (reveal_completes (N:=spec_float) 400 200 [ImgLoad 800 400]
                [100; 250; 100; 120; 100]%nat) as Hthm.
  assert (H1 : enter_top (run (init (N:=spec_float) 400 200)
                            [ImgLoad 800 400]) = Live)
    by (vm_compute; reflexivity).
  assert (H2 : Forall (λ d, 100 ≤ d)%nat [100; 250; 100; 120; 100]%nat)
    by (repeat apply Forall_cons_2; try apply Forall_nil_2; lia).
  destruct (Hthm H1 eq_refl H2) as (fs & Hfs & Hidx & _).
  split; [exact H1|]. exists fs. split; assumption.
Defined.

Lemma sample_size_binary64_witness :
  0 <= canvas_width loaded < 4096 ∧ 0 <= canvas_height loaded < 4096 ∧
  f_scaledW (render_frame loaded) =
    (λ c, Binary64.of_Z (canvas_width loaded * c / 100)) <$>
      ([2; 4; 6; 9; 100] : list Z) !! pxIndex loaded ∧
  f_scaledH (render_frame loaded) =
    (λ c, Binary64.of_Z (canvas_height loaded * c / 100)) <$>
      ([2; 4; 6; 9; 100] : list Z) !! pxIndex loaded.
Proof.
  assert (H1 : 0 <= canvas_width loaded < 4096)
    by (vm_compute; split; [discriminate|reflexivity]).
  assert (H2 : 0 <= canvas_height loaded < 4096)
    by (vm_compute; split; [discriminate|reflexivity]).
  exact (conj H1 (conj H2 (sample_size_binary64 loaded H1 H2))).
Defined.

Lemma coarsest_frame_empty_below_50_witness :
  pxIndex (step (init (N:=spec_float) 40 30) (ImgLoad 800 400)) = 0%nat ∧
  0 <= canvas_width (step (init (N:=spec_float) 40 30) (ImgLoad 800 400)) < 4096 ∧
  (f_scaledW (render_frame (step (init (N:=spec_float) 40 30) (ImgLoad 800 400))) =
     Some (S754_zero false) ↔
   canvas_width (step (init (N:=spec_float) 40 30) (ImgLoad 800 400)) < 50).
Proof.
  assert (H1 : pxIndex (step (init (N:=spec_float) 40 30) (ImgLoad 800 400)) =
               0%nat) by (vm_compute; reflexivity).
  assert (H2 : 0 <= canvas_width (step (init (N:=spec_float) 40 30)
                                    (ImgLoad 800 400)) < 4096)
    by (vm_compute; split; [discriminate|reflexivity]).
  exact (conj H1 (conj H2 (coarsest_frame_empty_below_50 _ H1 H2))).
Defined.

Lemma canvas_follows_image_witness :
  NoDup ([1; 2] ++ 3 :: [])%nat ∧ (7%nat ∉ ([1; 2] ++ 3 :: [])%nat) ∧
  insert_canvas 7%nat 3%nat (Some ([1; 2] ++ 3 :: [])%nat) =
    Some ([1; 2] ++ 3 :: 7 :: [])%nat.
Proof.
  assert (H1 : NoDup ([1; 2] ++ 3 :: [])%nat) by (apply (bool_decide_unpack _); exact I).
  assert (H2 : 7%nat ∉ ([1; 2] ++ 3 :: [])%nat) by (apply (bool_decide_unpack _); exact I).
  split_and!; [exact H1|exact H2|].
  exact (canvas_follows_image 7%nat 3%nat [1; 2]%nat [] H1 H2).
Defined.
